(** * Pixel Magic: the generation gating workflow of [pages/Index.tsx]

    A shallow embedding of the event handlers of the [Index] page
    ([handleGenerate], [handleResendVerification], [handleNextTutorial] and
    the small setters around them) and of the React state they act on.

    - JavaScript strings are sequences of UTF-16 code units ([list N]).
    - The component state is a record with one field per [useState] hook.
    - A handler is a program of the free monad [Prog]: synchronous effects
      (state setters, toasts, [console.error]) and suspension points
      ([await]) whose continuation receives how the promise settled.
    - [run] executes a handler to completion against the answers of the
      remote services; [step] interleaves handlers the way the browser's
      event loop does (UI events and promise settlements, one at a time). *)

From Stdlib Require Import List Bool ZArith NArith Lia String Ascii.
Import ListNotations.

Set Implicit Arguments.

(** ** JavaScript strings *)

Module JS.

Definition jsstring := list N.

(** A source literal (all literals of the page are ASCII). *)
Definition lit (s : string) : jsstring :=
  map N_of_ascii (list_ascii_of_string s).

(** [WhiteSpace] and [LineTerminator] code units, the characters
    [String.prototype.trim] strips. *)
Definition isWhiteSpace (c : N) : bool :=
  (existsb (N.eqb c)
     [9; 10; 11; 12; 13; 32; 160; 5760; 8232; 8233; 8239; 8287; 12288; 65279]
   || ((8192 <=? c) && (c <=? 8202)))%N.

Fixpoint trimStart (s : jsstring) : jsstring :=
  match s with
  | [] => []
  | c :: rest => if isWhiteSpace c then trimStart rest else s
  end.

Definition trimEnd (s : jsstring) : jsstring := rev (trimStart (rev s)).

Definition trim (s : jsstring) : jsstring := trimEnd (trimStart s).

(** Truthiness of a string: the empty string is the only falsy one. *)
Definition truthy (s : jsstring) : bool :=
  match s with [] => false | _ :: _ => true end.

Fixpoint startsWith (needle s : jsstring) : bool :=
  match needle, s with
  | [], _ => true
  | _ :: _, [] => false
  | a :: needle', b :: s' => (a =? b)%N && startsWith needle' s'
  end.

(** [String.prototype.includes]: the needle occurs at some position. *)
Fixpoint includes (s needle : jsstring) : bool :=
  startsWith needle s
  || match s with
     | [] => false
     | _ :: rest => includes rest needle
     end.

(** A prompt is blank when every code unit of it is white space. *)
Definition blank (s : jsstring) : bool := forallb isWhiteSpace s.

End JS.

Import JS.

(** ** Data model *)

(** [auth.currentUser]: only the [uid] is read by the page. *)
Record User := { uid : jsstring }.

(** Modelled from the spec: the [GeneratedImage] type of
    [services/imageService] is not part of the sources; the data model
    gives it an identifier, the originating prompt, an image reference and
    a creation timestamp. *)
Record GeneratedImage := {
  image_id : jsstring;
  image_prompt : jsstring;
  image_url : jsstring;
  image_timestamp : Z
}.

(** One field per [useState] hook of the component, with the hook's name. *)
Record State := {
  prompt : jsstring;
  isGenerating : bool;
  images : list GeneratedImage;
  apiKey : jsstring;
  isApiKeySet : bool;
  isPurchaseModalOpen : bool;
  isEmailVerified : option bool;
  isVerificationLoading : bool;
  showTutorial : bool;
  tutorialStep : Z
}.

(** The initial values given to [useState]. *)
Definition initialState : State := {|
  prompt := [];
  isGenerating := false;
  images := [];
  apiKey := [];
  isApiKeySet := false;
  isPurchaseModalOpen := false;
  isEmailVerified := None;
  isVerificationLoading := false;
  showTutorial := true;
  tutorialStep := 0
|}.

(** The static descriptors of the walkthrough. *)
Record TutorialStep := { title : jsstring; description : jsstring }.

Definition tutorialSteps : list TutorialStep := [
  {| title := lit "Welcome to Pixel Magic!";
     description := lit "Generate AI images in seconds. Let us show you how to get started." |};
  {| title := lit "Step 1: Sign In";
     description := lit "Sign in with Google to start generating images and track your credits." |};
  {| title := lit "Step 2: Enter a Prompt";
     description := lit "Describe what you want to see. The AI will create an image based on your prompt." |};
  {| title := lit "Step 3: Generate & Download";
     description := lit "Click generate, then download or share your masterpiece!" |};
  {| title := lit "Start Creating Now!";
     description := lit "Get started with your free credits and join our growing community of creators." |}
].

(** What a [throw] or a rejected promise carries: an [Error] instance with
    its message, or any other JavaScript value. *)
Inductive Thrown :=
| ErrorInstance (message : jsstring)
| OtherValue (shown : jsstring).

(** How a promise settles. *)
Inductive Result (X : Type) :=
| Resolved (x : X)
| Rejected (e : Thrown).
Arguments Rejected {X} e.

(** ** Effects *)

Inductive Icon := IconZap | IconMail | IconSparkles.

Record ToastOptions := {
  duration : Z;
  className : jsstring;
  icon : Icon
}.

(** Synchronous effects: the state setters, the toasts and the console. *)
Inductive Op :=
| setPrompt (s : jsstring)
| setIsGenerating (b : bool)
| setImages (update : list GeneratedImage -> list GeneratedImage)
| setApiKey (s : jsstring)
| setIsApiKeySet (b : bool)
| setIsPurchaseModalOpen (b : bool)
| setIsEmailVerified (v : option bool)
| setIsVerificationLoading (b : bool)
| setShowTutorial (b : bool)
| setTutorialStep (n : Z)
| toast_error (message : jsstring) (options : option ToastOptions)
| toast_success (message : jsstring) (options : option ToastOptions)
| console_error (label : jsstring) (error : Thrown)
| console_log (label : jsstring).

(** Calls to the remote services, indexed by what their promise resolves to. *)
Inductive Call : Type -> Type :=
| checkEmailVerified (id : jsstring) : Call bool
| hasEnoughCredits (id : jsstring) : Call bool
| generateImage (text : jsstring) : Call GeneratedImage
| sendVerificationEmail (user : User) : Call unit.

(** Handlers: a free monad over the synchronous effects and two kinds of
    suspension, [await call] and [await Promise.all([call1, call2])]. *)
Inductive Prog (A : Type) : Type :=
| Ret (a : A)
| Throw (e : Thrown)
| Do (op : Op) (k : Prog A)
| Await {X : Type} (c : Call X) (k : Result X -> Prog A)
| AwaitAll {X Y : Type} (c1 : Call X) (c2 : Call Y)
    (k : Result (X * Y) -> Prog A).
Arguments Throw {A} e.

Fixpoint bind {A B : Type} (p : Prog A) (f : A -> Prog B) : Prog B :=
  match p with
  | Ret a => f a
  | Throw e => Throw e
  | Do op k => Do op (bind k f)
  | Await c k => Await c (fun r => bind (k r) f)
  | AwaitAll c1 c2 k => AwaitAll c1 c2 (fun r => bind (k r) f)
  end.

Declare Scope prog_scope.
Delimit Scope prog_scope with prog.
Notation "x <- p ;; q" := (bind p (fun x => q))
  (at level 61, p at next level, right associativity) : prog_scope.
Notation "' pat <- p ;; q" := (bind p (fun x => match x with pat => q end))
  (at level 61, pat pattern, p at next level, right associativity) : prog_scope.
Notation "p ;; q" := (bind p (fun _ => q))
  (at level 61, right associativity) : prog_scope.
Open Scope prog_scope.

Definition perform (op : Op) : Prog unit := Do op (Ret tt).

(** A rejected promise makes [await] throw. *)
Definition settled {X : Type} (r : Result X) : Prog X :=
  match r with
  | Resolved x => Ret x
  | Rejected e => Throw e
  end.

Definition await {X : Type} (c : Call X) : Prog X := Await c settled.

Definition await_all {X Y : Type} (c1 : Call X) (c2 : Call Y) : Prog (X * Y) :=
  AwaitAll c1 c2 settled.

(** [try { body } catch (error) { handler error }] *)
Fixpoint try_catch {A : Type} (body : Prog A) (handler : Thrown -> Prog A)
  : Prog A :=
  match body with
  | Ret a => Ret a
  | Throw e => handler e
  | Do op k => Do op (try_catch k handler)
  | Await c k => Await c (fun r => try_catch (k r) handler)
  | AwaitAll c1 c2 k => AwaitAll c1 c2 (fun r => try_catch (k r) handler)
  end.

(** [try { body } finally { cleanup }]: the cleanup runs on every way out
    of the body, then the body's completion is resumed. *)
Fixpoint try_finally {A : Type} (body : Prog A) (cleanup : Prog unit)
  : Prog A :=
  match body with
  | Ret a => cleanup ;; Ret a
  | Throw e => cleanup ;; Throw e
  | Do op k => Do op (try_finally k cleanup)
  | Await c k => Await c (fun r => try_finally (k r) cleanup)
  | AwaitAll c1 c2 k => AwaitAll c1 c2 (fun r => try_finally (k r) cleanup)
  end.

(** ** The handlers of the page *)

Definition red_toast (ms : Z) (i : Icon) : option ToastOptions :=
  Some {| duration := ms;
          className := lit "font-medium border border-red-200";
          icon := i |}.

Definition green_toast (ms : Z) (i : Icon) : option ToastOptions :=
  Some {| duration := ms;
          className := lit "font-medium border border-green-200";
          icon := i |}.

Definition instanceofError (error : Thrown) : bool :=
  match error with
  | ErrorInstance _ => true
  | OtherValue _ => false
  end.

(** [error.message], read only behind [error instanceof Error]. *)
Definition message_of (error : Thrown) : jsstring :=
  match error with
  | ErrorInstance message => message
  | OtherValue _ => []
  end.

Definition msg_missing_prompt : jsstring := lit "Please enter a prompt first".
Definition msg_missing_key : jsstring :=
  lit "Please enter your Together AI API key first or set VITE_TOGETHER_API_KEY environment variable".
Definition msg_not_logged_in : jsstring := lit "Please log in to generate images".
Definition msg_unverified : jsstring :=
  lit "Please verify your email before generating images".
Definition msg_insufficient : jsstring :=
  lit "Insufficient credits. Please purchase more to continue.".
Definition msg_success : jsstring := lit "Image generated successfully!".
Definition msg_failed : jsstring :=
  lit "Failed to generate image. Please check your API key and try again.".
Definition msg_resend_login : jsstring :=
  lit "Please log in to resend verification email".

(** The condition of the [catch] block ("Don't show duplicate error
    toasts"). *)
Definition not_duplicate (error : Thrown) : bool :=
  instanceofError error
  && negb (includes (message_of error) (lit "Insufficient credits"))
  && negb (includes (message_of error) (lit "Email not verified")).

(** The [catch] block of [handleGenerate]. *)
Definition handleGenerate_catch (error : Thrown) : Prog unit :=
  perform (console_error (lit "Error generating image:") error) ;;
  if not_duplicate error
  then perform (toast_error msg_failed (red_toast 4000 IconZap))
  else Ret tt.

(** The [try] block of [handleGenerate]; [text] is the prompt of the
    render that created the callback. *)
Definition handleGenerate_try (text : jsstring) (user : User) : Prog unit :=
  '(verified, hasCredits) <-
     await_all (checkEmailVerified (uid user)) (hasEnoughCredits (uid user)) ;;
  perform (setIsEmailVerified (Some verified)) ;;
  if negb verified then
    perform (toast_error msg_unverified (red_toast 4000 IconMail)) ;;
    perform (setIsGenerating false)
  else if negb hasCredits then
    perform (toast_error msg_insufficient (red_toast 4000 IconZap)) ;;
    perform (setIsPurchaseModalOpen true) ;;
    perform (setIsGenerating false)
  else
    newImage <- await (generateImage text) ;;
    perform (setImages (cons newImage)) ;;
    perform (toast_success msg_success (green_toast 3000 IconSparkles)).

(** [handleGenerate]: [render] is the state captured by the callback,
    [currentUser] is [auth.currentUser] when the handler runs. Each early
    [return] of the source is the end of its branch here. *)
Definition handleGenerate (render : State) (currentUser : option User)
  : Prog unit :=
  if isGenerating render then Ret tt
  else if negb (truthy (trim (prompt render))) then
    perform (toast_error msg_missing_prompt (red_toast 3000 IconZap))
  else if negb (isApiKeySet render) then
    perform (toast_error msg_missing_key (red_toast 4000 IconZap))
  else
    perform (setIsGenerating true) ;;
    match currentUser with
    | None =>
        perform (toast_error msg_not_logged_in (red_toast 3000 IconZap)) ;;
        perform (setIsGenerating false)
    | Some user =>
        try_finally
          (try_catch (handleGenerate_try (prompt render) user)
             handleGenerate_catch)
          (perform (setIsGenerating false))
    end.

Definition handleResendVerification (currentUser : option User) : Prog unit :=
  try_finally
    (try_catch
       (perform (setIsVerificationLoading true) ;;
        match currentUser with
        | Some user => await (sendVerificationEmail user)
        | None => perform (toast_error msg_resend_login None)
        end)
       (fun error =>
          perform (console_error (lit "Failed to resend verification:") error)))
    (perform (setIsVerificationLoading false)).

Definition handleNextTutorial (render : State) : Prog unit :=
  if (tutorialStep render <? Z.of_nat (List.length tutorialSteps) - 1)%Z
  then perform (setTutorialStep (tutorialStep render + 1))
  else perform (setShowTutorial false).

Definition handlePromptChange (newPrompt : jsstring) : Prog unit :=
  perform (setPrompt newPrompt).

Definition handleApiKeyChange (newApiKey : jsstring) : Prog unit :=
  perform (setApiKey newApiKey).

(** [checkVerification] of the first effect. *)
Definition checkVerification (currentUser : option User) : Prog unit :=
  match currentUser with
  | Some user =>
      try_catch
        (verified <- await (checkEmailVerified (uid user)) ;;
         perform (setIsEmailVerified (Some verified)))
        (fun error =>
           perform (console_error (lit "Error checking verification status:")
                      error))
  | None => perform (setIsEmailVerified None)
  end.

(** The listener given to [auth.onAuthStateChanged]; when it runs,
    [auth.currentUser] is the user it receives. *)
Definition onAuthStateChanged (user : option User) : Prog unit :=
  match user with
  | Some _ => checkVerification user
  | None => perform (setIsEmailVerified None)
  end.

(** The second effect, which runs after a render whose [apiKey] changed.
    [envApiKey] is [import.meta.env.VITE_TOGETHER_API_KEY] (empty when
    unset); [initializeTogether] of [services/imageService] is not part of
    the sources and is taken as a parameter: [None] when it returns,
    [Some e] when it throws [e]. *)
Definition apiKeyEffect (envApiKey : jsstring)
  (initializeTogether : jsstring -> option Thrown) (render : State)
  : Prog unit :=
  if truthy envApiKey then
    match initializeTogether envApiKey with
    | None =>
        perform (setApiKey envApiKey) ;;
        perform (setIsApiKeySet true) ;;
        perform (console_log (lit "Using API key from environment variable"))
    | Some error =>
        perform (console_error (lit "Error initializing Together client:")
                   error) ;;
        perform (toast_error (lit "Invalid API key in environment variable")
                   None)
    end
  else if truthy (apiKey render) then
    match initializeTogether (apiKey render) with
    | None => perform (setIsApiKeySet true)
    | Some error =>
        perform (console_error (lit "Error initializing Together client:")
                   error) ;;
        perform (toast_error (lit "Invalid API key format") None) ;;
        perform (setIsApiKeySet false)
    end
  else Ret tt.

(** What the verification banner renders: nothing, or the Resend button
    with its [disabled] attribute. *)
Inductive Banner := NoBanner | ResendButton (disabled : bool).

Definition renderVerificationBanner (render : State)
  (currentUser : option User) : Banner :=
  match currentUser, isEmailVerified render with
  | Some _, Some false => ResendButton (isVerificationLoading render)
  | _, _ => NoBanner
  end.

(** A click on the banner's button. The [Button] component of
    [components/ui/button] is not part of the sources; it is taken to do
    what an HTML button does with the attributes it is given: a button that
    is not rendered, or is rendered [disabled], dispatches no click. *)
Definition clickResend (render : State) (currentUser : option User)
  : Prog unit :=
  match renderVerificationBanner render currentUser with
  | ResendButton false => handleResendVerification currentUser
  | _ => Ret tt
  end.

(** ** Running a handler to completion *)

Definition apply_op (op : Op) (st : State) : State :=
  match op with
  | setPrompt s =>
      {| prompt := s; isGenerating := isGenerating st; images := images st;
         apiKey := apiKey st; isApiKeySet := isApiKeySet st;
         isPurchaseModalOpen := isPurchaseModalOpen st;
         isEmailVerified := isEmailVerified st;
         isVerificationLoading := isVerificationLoading st;
         showTutorial := showTutorial st; tutorialStep := tutorialStep st |}
  | setIsGenerating b =>
      {| prompt := prompt st; isGenerating := b; images := images st;
         apiKey := apiKey st; isApiKeySet := isApiKeySet st;
         isPurchaseModalOpen := isPurchaseModalOpen st;
         isEmailVerified := isEmailVerified st;
         isVerificationLoading := isVerificationLoading st;
         showTutorial := showTutorial st; tutorialStep := tutorialStep st |}
  | setImages update =>
      {| prompt := prompt st; isGenerating := isGenerating st;
         images := update (images st);
         apiKey := apiKey st; isApiKeySet := isApiKeySet st;
         isPurchaseModalOpen := isPurchaseModalOpen st;
         isEmailVerified := isEmailVerified st;
         isVerificationLoading := isVerificationLoading st;
         showTutorial := showTutorial st; tutorialStep := tutorialStep st |}
  | setApiKey s =>
      {| prompt := prompt st; isGenerating := isGenerating st;
         images := images st;
         apiKey := s; isApiKeySet := isApiKeySet st;
         isPurchaseModalOpen := isPurchaseModalOpen st;
         isEmailVerified := isEmailVerified st;
         isVerificationLoading := isVerificationLoading st;
         showTutorial := showTutorial st; tutorialStep := tutorialStep st |}
  | setIsApiKeySet b =>
      {| prompt := prompt st; isGenerating := isGenerating st;
         images := images st;
         apiKey := apiKey st; isApiKeySet := b;
         isPurchaseModalOpen := isPurchaseModalOpen st;
         isEmailVerified := isEmailVerified st;
         isVerificationLoading := isVerificationLoading st;
         showTutorial := showTutorial st; tutorialStep := tutorialStep st |}
  | setIsPurchaseModalOpen b =>
      {| prompt := prompt st; isGenerating := isGenerating st;
         images := images st;
         apiKey := apiKey st; isApiKeySet := isApiKeySet st;
         isPurchaseModalOpen := b;
         isEmailVerified := isEmailVerified st;
         isVerificationLoading := isVerificationLoading st;
         showTutorial := showTutorial st; tutorialStep := tutorialStep st |}
  | setIsEmailVerified v =>
      {| prompt := prompt st; isGenerating := isGenerating st;
         images := images st;
         apiKey := apiKey st; isApiKeySet := isApiKeySet st;
         isPurchaseModalOpen := isPurchaseModalOpen st;
         isEmailVerified := v;
         isVerificationLoading := isVerificationLoading st;
         showTutorial := showTutorial st; tutorialStep := tutorialStep st |}
  | setIsVerificationLoading b =>
      {| prompt := prompt st; isGenerating := isGenerating st;
         images := images st;
         apiKey := apiKey st; isApiKeySet := isApiKeySet st;
         isPurchaseModalOpen := isPurchaseModalOpen st;
         isEmailVerified := isEmailVerified st;
         isVerificationLoading := b;
         showTutorial := showTutorial st; tutorialStep := tutorialStep st |}
  | setShowTutorial b =>
      {| prompt := prompt st; isGenerating := isGenerating st;
         images := images st;
         apiKey := apiKey st; isApiKeySet := isApiKeySet st;
         isPurchaseModalOpen := isPurchaseModalOpen st;
         isEmailVerified := isEmailVerified st;
         isVerificationLoading := isVerificationLoading st;
         showTutorial := b; tutorialStep := tutorialStep st |}
  | setTutorialStep n =>
      {| prompt := prompt st; isGenerating := isGenerating st;
         images := images st;
         apiKey := apiKey st; isApiKeySet := isApiKeySet st;
         isPurchaseModalOpen := isPurchaseModalOpen st;
         isEmailVerified := isEmailVerified st;
         isVerificationLoading := isVerificationLoading st;
         showTutorial := showTutorial st; tutorialStep := n |}
  | toast_error _ _ | toast_success _ _ | console_error _ _
  | console_log _ => st
  end.

(** What the page does that can be observed: the effects it performs and
    the remote calls it issues, in order. *)
Inductive Event :=
| Performed (op : Op)
| Issued {X : Type} (c : Call X).

(** The answers of the remote services during one run of a handler, and
    which of two rejected promises rejects first. *)
Record Remote := {
  answer_checkEmailVerified : jsstring -> Result bool;
  answer_hasEnoughCredits : jsstring -> Result bool;
  answer_generateImage : jsstring -> Result GeneratedImage;
  answer_sendVerificationEmail : User -> Result unit;
  first_rejects_first : bool
}.

Definition respond (R : Remote) {X : Type} (c : Call X) : Result X :=
  match c in Call T return Result T with
  | checkEmailVerified id => answer_checkEmailVerified R id
  | hasEnoughCredits id => answer_hasEnoughCredits R id
  | generateImage text => answer_generateImage R text
  | sendVerificationEmail user => answer_sendVerificationEmail R user
  end.

(** [Promise.all] of two promises: resolves with both values, rejects with
    the reason of the promise that rejects first. *)
Definition promise_all {X Y : Type} (first : bool)
  (r1 : Result X) (r2 : Result Y) : Result (X * Y) :=
  match r1, r2 with
  | Resolved x, Resolved y => Resolved (x, y)
  | Rejected e, Resolved _ => Rejected e
  | Resolved _, Rejected e => Rejected e
  | Rejected e1, Rejected e2 => Rejected (if first then e1 else e2)
  end.

(** How a handler ends: normally, or with an error nobody caught. *)
Inductive Completion (A : Type) :=
| Normal (a : A)
| Unhandled (e : Thrown).
Arguments Unhandled {A} e.

Fixpoint run {A : Type} (R : Remote) (p : Prog A) (st : State)
  : State * list Event * Completion A :=
  match p with
  | Ret a => (st, [], Normal a)
  | Throw e => (st, [], Unhandled e)
  | Do op k =>
      let '(st', trace, c) := run R k (apply_op op st) in
      (st', Performed op :: trace, c)
  | Await c k =>
      let '(st', trace, c') := run R (k (respond R c)) st in
      (st', Issued c :: trace, c')
  | AwaitAll c1 c2 k =>
      let '(st', trace, c') :=
        run R (k (promise_all (first_rejects_first R)
                    (respond R c1) (respond R c2))) st in
      (st', Issued c1 :: Issued c2 :: trace, c')
  end.

(** Observations on a trace. *)
Definition toasts (trace : list Event) : list Op :=
  flat_map (fun ev =>
    match ev with
    | Performed (toast_error m o) => [toast_error m o]
    | Performed (toast_success m o) => [toast_success m o]
    | _ => []
    end) trace.

Definition is_remote_call (ev : Event) : bool :=
  match ev with
  | Issued _ => true
  | Performed _ => false
  end.

Definition is_generation_call (ev : Event) : bool :=
  match ev with
  | Issued (generateImage _) => true
  | _ => false
  end.

Definition is_send_call (ev : Event) : bool :=
  match ev with
  | Issued (sendVerificationEmail _) => true
  | _ => false
  end.

Definition opens_purchase_flow (ev : Event) : bool :=
  match ev with
  | Performed (setIsPurchaseModalOpen true) => true
  | _ => false
  end.

Definition count (f : Event -> bool) (trace : list Event) : nat :=
  List.length (filter f trace).

(** ** The page as a transition system

    Handlers do not run to completion in one piece: each [await] hands
    control back to the event loop, and other events are handled before the
    promise settles. A [World] holds the committed component state, the
    signed-in user, the suspended handlers and the history of what happened.
    Every event handler runs on the state committed by the previous event:
    the setters a handler calls before its first [await] are flushed before
    the next UI event is dispatched, and [handleGenerate] is re-created
    whenever [prompt], [isApiKeySet] or [isGenerating] changes (the
    dependencies of its [useCallback]). *)

Inductive Handler :=
| HGenerate | HResend | HNextTutorial | HPromptChange | HApiKeyChange
| HApiKeyEffect | HDialog | HPurchaseModal | HAuthListener.

(** A handler stopped at an [await], with the rest of its body. *)
Inductive Suspension :=
| OnCall {X : Type} (c : Call X) (k : Result X -> Prog unit)
| OnAll {X Y : Type} (c1 : Call X) (c2 : Call Y)
    (k : Result (X * Y) -> Prog unit).

Record Task := { origin : Handler; waiting : Suspension }.

Record World := {
  ui : State;
  currentUser : option User;
  inflight : list Task;
  history : list Event
}.

(** The page right after it is mounted. *)
Definition mount (user : option User) : World :=
  {| ui := initialState; currentUser := user; inflight := []; history := [] |}.

(** Run the synchronous part of a handler, up to its next [await]. *)
Fixpoint advance (p : Prog unit) (st : State)
  : State * list Event * option Suspension :=
  match p with
  | Ret _ | Throw _ => (st, [], None)
  | Do op k =>
      let '(st', trace, s) := advance k (apply_op op st) in
      (st', Performed op :: trace, s)
  | Await c k => (st, [Issued c], Some (OnCall c k))
  | AwaitAll c1 c2 k => (st, [Issued c1; Issued c2], Some (OnAll c1 c2 k))
  end.

Definition suspended (h : Handler) (s : option Suspension) : list Task :=
  match s with
  | Some s => [{| origin := h; waiting := s |}]
  | None => []
  end.

(** Start, or resume, handler [h] with body [p] next to the tasks [rest]. *)
Definition dispatch (h : Handler) (p : Prog unit) (user : option User)
  (rest : list Task) (w : World) : World :=
  let '(st', trace, s) := advance p (ui w) in
  {| ui := st';
     currentUser := user;
     inflight := rest ++ suspended h s;
     history := history w ++ trace |}.

(** What the event loop delivers to the page, apart from the settlement of
    promises: the user's gestures, the effect that follows a change of
    [apiKey], and the authentication provider's notifications.

    [GenerateButton] and [PromptInput] are not part of the sources, so
    nothing is assumed of what they do with [disabled]: a click on Generate
    reaches [handleGenerate], and the prompt can change, in every state. *)
Inductive Input :=
| ClickGenerate
| ClickResend
| ClickNext
| PromptChange (newPrompt : jsstring)
| ApiKeyChange (newApiKey : jsstring)
| ApiKeyEffect (envApiKey : jsstring)
    (initializeTogether : jsstring -> option Thrown)
| DialogOpenChange (open : bool)
| PurchaseClose
| AuthStateChanged (user : option User).

(** [auth.currentUser] once the input has been delivered. *)
Definition user_after (input : Input) (user : option User) : option User :=
  match input with
  | AuthStateChanged user' => user'
  | _ => user
  end.

(** The handler an input runs, on the committed state [render]. *)
Definition handler_of (input : Input) (render : State) (user : option User)
  : Handler * Prog unit :=
  match input with
  | ClickGenerate => (HGenerate, handleGenerate render user)
  | ClickResend => (HResend, clickResend render user)
  | ClickNext => (HNextTutorial, handleNextTutorial render)
  | PromptChange newPrompt => (HPromptChange, handlePromptChange newPrompt)
  | ApiKeyChange newApiKey => (HApiKeyChange, handleApiKeyChange newApiKey)
  | ApiKeyEffect envApiKey initializeTogether =>
      (HApiKeyEffect, apiKeyEffect envApiKey initializeTogether render)
  | DialogOpenChange open => (HDialog, perform (setShowTutorial open))
  | PurchaseClose => (HPurchaseModal, perform (setIsPurchaseModalOpen false))
  | AuthStateChanged user' => (HAuthListener, onAuthStateChanged user')
  end.

Definition deliver (input : Input) (w : World) : World :=
  let user := user_after input (currentUser w) in
  dispatch (fst (handler_of input (ui w) user))
    (snd (handler_of input (ui w) user)) user (inflight w) w.

Inductive step : World -> World -> Prop :=
| step_input w input :
    step w (deliver input w)
| step_settle w h X (c : Call X) k before after (r : Result X) :
    inflight w = before ++ {| origin := h; waiting := OnCall c k |} :: after ->
    step w (dispatch h (k r) (currentUser w) (before ++ after) w)
| step_settle_all w h X Y (c1 : Call X) (c2 : Call Y) k before after
    (r1 : Result X) (r2 : Result Y) (first : bool) :
    inflight w
    = before ++ {| origin := h; waiting := OnAll c1 c2 k |} :: after ->
    step w (dispatch h (k (promise_all first r1 r2)) (currentUser w)
              (before ++ after) w).

Inductive reachable : World -> Prop :=
| reachable_mount user : reachable (mount user)
| reachable_step w w' : reachable w -> step w w' -> reachable w'.

(** Tasks waiting on a given kind of remote call. *)
Definition awaits_generateImage (t : Task) : bool :=
  match waiting t with
  | OnCall (generateImage _) _ => true
  | _ => false
  end.

Definition awaits_sendVerificationEmail (t : Task) : bool :=
  match waiting t with
  | OnCall (sendVerificationEmail _) _ => true
  | _ => false
  end.

Definition Handler_eqb (h1 h2 : Handler) : bool :=
  match h1, h2 with
  | HGenerate, HGenerate | HResend, HResend | HNextTutorial, HNextTutorial
  | HPromptChange, HPromptChange | HApiKeyChange, HApiKeyChange
  | HApiKeyEffect, HApiKeyEffect | HDialog, HDialog
  | HPurchaseModal, HPurchaseModal | HAuthListener, HAuthListener => true
  | _, _ => false
  end.

Definition from_handler (h : Handler) (t : Task) : bool :=
  Handler_eqb h (origin t).

Definition tasks (f : Task -> bool) (w : World) : nat :=
  List.length (filter f (inflight w)).

(** ** Who writes what

    [writes op] tells whether [op] sets the state field under study, and to
    what; [guarded c] tells whether [c] is the remote call under study. *)

Section Discipline.

Variable V : Type.
Variable writes : Op -> option V.
Variable guarded : forall X : Type, Call X -> bool.

(** [p] never sets the field and never issues the call, however the
    promises it awaits settle. *)
Fixpoint spares (p : Prog unit) : Prop :=
  match p with
  | Ret _ | Throw _ => True
  | Do op k => writes op = None /\ spares k
  | Await c k => guarded c = false /\ forall r, spares (k r)
  | AwaitAll c1 c2 k =>
      guarded c1 = false /\ guarded c2 = false /\ forall r, spares (k r)
  end.

Definition suspension_spares (s : Suspension) : Prop :=
  match s with
  | OnCall c k => guarded c = false /\ forall r, spares (k r)
  | OnAll c1 c2 k =>
      guarded c1 = false /\ guarded c2 = false /\ forall r, spares (k r)
  end.

(** Every task in flight leaves the field and the call alone. *)
Definition all_spare (w : World) : Prop :=
  Forall (fun t => suspension_spares (waiting t)) (inflight w).

End Discipline.

Section BusyFlag.

Variable writes : Op -> option bool.

(** [holds busy p]: started when the flag is [busy], [p] has the flag set
    whenever it is suspended and has it cleared when it ends. *)
Fixpoint holds (busy : bool) (p : Prog unit) : Prop :=
  match p with
  | Ret _ | Throw _ => busy = false
  | Do op k => holds (match writes op with Some b => b | None => busy end) k
  | Await c k => busy = true /\ forall r, holds true (k r)
  | AwaitAll c1 c2 k => busy = true /\ forall r, holds true (k r)
  end.

Definition suspension_holds (s : Suspension) : Prop :=
  match s with
  | OnCall c k => forall r, holds true (k r)
  | OnAll c1 c2 k => forall r, holds true (k r)
  end.

Variable guarded : forall X : Type, Call X -> bool.
Variable owner : Handler.
Variable flag : State -> bool.

(** The tasks of the handler that owns the flag hold it; all other tasks
    leave it alone. At most one task of the owner is in flight, and the
    flag is set exactly while there is one. *)
Definition task_disciplined (t : Task) : Prop :=
  if from_handler owner t then suspension_holds (waiting t)
  else suspension_spares writes guarded (waiting t).

(** What is asked of the body [p] that handler [h] starts on state [st]:
    the owner either finds the flag set and does nothing, or finds it clear
    and holds it; every other handler leaves the flag alone. *)
Definition handler_disciplined (h : Handler) (p : Prog unit) (st : State)
  : Prop :=
  if Handler_eqb owner h
  then (flag st = true /\ p = Ret tt) \/ (flag st = false /\ holds false p)
  else spares writes guarded p.

Definition disciplined (w : World) : Prop :=
  Forall task_disciplined (inflight w)
  /\ tasks (from_handler owner) w <= 1
  /\ flag (ui w) = negb (tasks (from_handler owner) w =? 0).

End BusyFlag.

Definition writes_isGenerating (op : Op) : option bool :=
  match op with
  | setIsGenerating b => Some b
  | _ => None
  end.

Definition writes_isVerificationLoading (op : Op) : option bool :=
  match op with
  | setIsVerificationLoading b => Some b
  | _ => None
  end.

Definition writes_tutorialStep (op : Op) : option Z :=
  match op with
  | setTutorialStep n => Some n
  | _ => None
  end.

Definition is_generateImage (X : Type) (c : Call X) : bool :=
  match c with
  | generateImage _ => true
  | _ => false
  end.

Definition is_sendVerificationEmail (X : Type) (c : Call X) : bool :=
  match c with
  | sendVerificationEmail _ => true
  | _ => false
  end.

Definition no_call (X : Type) (c : Call X) : bool := false.

(** ** Observing one run *)

Definition final {A : Type} (x : State * list Event * Completion A) : State :=
  fst (fst x).

Definition trace {A : Type} (x : State * list Event * Completion A)
  : list Event :=
  snd (fst x).

Definition completion {A : Type} (x : State * list Event * Completion A)
  : Completion A :=
  snd x.

(** One invocation of [handleGenerate]: the callback of the current render
    runs on the current state. *)
Definition attempt (R : Remote) (st : State) (user : option User)
  : State * list Event * Completion unit :=
  run R (handleGenerate st user) st.

(** One invocation of [handleResendVerification]. *)
Definition resend (R : Remote) (st : State) (user : option User)
  : State * list Event * Completion unit :=
  run R (handleResendVerification user) st.

(** One click on Next (or Finish) in the walkthrough. *)
Definition next (st : State) : State :=
  fst (fst (advance (handleNextTutorial st) st)).

(** The dialog reporting that it was opened or closed
    ([onOpenChange={setShowTutorial}]). *)
Definition onOpenChange (open : bool) (st : State) : State :=
  apply_op (setShowTutorial open) st.

(** The walkthrough as the spec sees it: the step and the dismissed flag. *)
Definition walkthrough (st : State) : Z * bool :=
  (tutorialStep st, negb (showTutorial st)).

(** ** Sample data *)

Definition alice : User := {| uid := lit "alice-uid" |}.

Definition fox : jsstring := lit "a red fox in snow".

Definition fox_image : GeneratedImage :=
  {| image_id := lit "img-1";
     image_prompt := fox;
     image_url := lit "https://images.example/1.png";
     image_timestamp := 1700000000000 |}.

(** A service that gives the same answers to every user and prompt. *)
Definition service (verified credits : Result bool)
  (generated : Result GeneratedImage) : Remote :=
  {| answer_checkEmailVerified := fun _ => verified;
     answer_hasEnoughCredits := fun _ => credits;
     answer_generateImage := fun _ => generated;
     answer_sendVerificationEmail := fun _ => Resolved tt;
     first_rejects_first := true |}.

(** The page with a prompt typed in and the credential accepted. *)
Definition ready : State :=
  apply_op (setIsApiKeySet true) (apply_op (setPrompt fox) initialState).

(** The same page with one image already in the gallery. *)
Definition ready_with_gallery : State :=
  apply_op (setImages (cons fox_image)) ready.

(** A page that is generating while its prompt is blank. *)
Definition busy_blank : State :=
  apply_op (setIsGenerating true)
    (apply_op (setPrompt (lit "  ")) initialState).

(** A page whose verification email is being sent. *)
Definition sending : State :=
  apply_op (setIsVerificationLoading true)
    (apply_op (setIsEmailVerified (Some false)) initialState).

(** The re-entry guard and the local checks of [handleGenerate] let the
    invocation through. *)
Definition local_checks_pass (st : State) : Prop :=
  isGenerating st = false
  /\ blank (prompt st) = false
  /\ isApiKeySet st = true.

Definition is_verification_lookup (ev : Event) : bool :=
  match ev with
  | Issued (checkEmailVerified _) => true
  | _ => false
  end.

(** The invocation issues a remote call that [f] recognises. *)
Definition issues (f : Event -> bool)
  (x : State * list Event * Completion unit) : Prop :=
  count f (trace x) <> 0.

(** A failure of the remote phase of an attempt: the two lookups are
    issued and their [Promise.all] rejects with [e], or the generation call
    is issued and rejects with [e]. *)
Definition remote_phase_fails (R : Remote) (st : State) (user : User)
  (e : Thrown) : Prop :=
  (issues is_verification_lookup (attempt R st (Some user))
   /\ promise_all (first_rejects_first R)
        (answer_checkEmailVerified R (uid user))
        (answer_hasEnoughCredits R (uid user)) = Rejected e)
  \/ (issues is_generation_call (attempt R st (Some user))
      /\ answer_generateImage R (prompt st) = Rejected e).

(** The notice of the [catch] block. *)
Definition generic_failure_notice : Op :=
  toast_error msg_failed (red_toast 4000 IconZap).

(** [p] catches whatever is thrown inside it, however the promises it
    awaits settle. *)
Fixpoint never_throws (p : Prog unit) : Prop :=
  match p with
  | Ret _ => True
  | Throw _ => False
  | Do _ k => never_throws k
  | Await _ k => forall r, never_throws (k r)
  | AwaitAll _ _ k => forall r, never_throws (k r)
  end.

(** [op] leaves the gallery alone or puts one image in front of it. *)
Definition prepends (op : Op) : Prop :=
  match op with
  | setImages update => exists newImage, update = cons newImage
  | _ => True
  end.

(** [p] writes the gallery only by prepending. *)
Fixpoint gallery_grows (p : Prog unit) : Prop :=
  match p with
  | Ret _ | Throw _ => True
  | Do op k => prepends op /\ gallery_grows k
  | Await _ k => forall r, gallery_grows (k r)
  | AwaitAll _ _ k => forall r, gallery_grows (k r)
  end.

Definition suspension_grows (s : Suspension) : Prop :=
  match s with
  | OnCall _ k => forall r, gallery_grows (k r)
  | OnAll _ _ k => forall r, gallery_grows (k r)
  end.

Definition all_grow (w : World) : Prop :=
  Forall (fun t => suspension_grows (waiting t)) (inflight w).

(** Let the oldest promise in flight settle the way [R] answers. *)
Definition settle_oldest (R : Remote) (w : World) : World :=
  match inflight w with
  | [] => w
  | t :: rest =>
      match waiting t with
      | OnCall c k =>
          dispatch (origin t) (k (respond R c)) (currentUser w) rest w
      | OnAll c1 c2 k =>
          dispatch (origin t)
            (k (promise_all (first_rejects_first R)
                  (respond R c1) (respond R c2)))
            (currentUser w) rest w
      end
  end.

(** A session: alice is signed in, the credential comes from the
    environment, she types a prompt and clicks Generate. *)
Definition session_checking : World :=
  deliver ClickGenerate
    (deliver (PromptChange fox)
       (deliver (ApiKeyEffect (lit "together-key") (fun _ => None))
          (mount (Some alice)))).

(** The two checks pass: the generation call is in flight. *)
Definition session_generating : World :=
  settle_oldest
    (service (Resolved true) (Resolved true) (Resolved fox_image))
    session_checking.

(** A session in which alice, not yet verified, asked for the
    verification email again. *)
Definition session_resending : World :=
  deliver ClickResend
    (settle_oldest
       (service (Resolved false) (Resolved true) (Resolved fox_image))
       (deliver (AuthStateChanged (Some alice)) (mount None))).

(** ** What the page renders

    The parts of the returned JSX that depend on the state. *)

(** [disabled] of the Generate button. *)
Definition generateButtonDisabled (render : State) : bool :=
  negb (truthy (trim (prompt render))) || negb (isApiKeySet render).

(** The main area: the spinner while generating, else the gallery when it
    has images, else the slideshow and the "How It Works" cards. *)
Inductive View :=
| Spinner
| Creations (shown : list GeneratedImage)
| Welcome.

Definition mainView (render : State) : View :=
  if isGenerating render then Spinner
  else if (0 <? List.length (images render))%nat
       then Creations (images render)
       else Welcome.

(** [tutorialSteps[tutorialStep]]: [undefined] outside the array. *)
Definition tutorialDescriptor (render : State) : option TutorialStep :=
  if (tutorialStep render <? 0)%Z then None
  else nth_error tutorialSteps (Z.to_nat (tutorialStep render)).

(** The dots of the step indicator: [index === tutorialStep]. *)
Definition stepIndicator (render : State) : list bool :=
  map (fun index => (Z.of_nat index =? tutorialStep render)%Z)
    (seq 0 (List.length tutorialSteps)).

Inductive TutorialLabel := LabelFinish | LabelNext.

Definition tutorialButtonLabel (render : State) : TutorialLabel :=
  if (tutorialStep render =? Z.of_nat (List.length tutorialSteps) - 1)%Z
  then LabelFinish
  else LabelNext.



(** ** More observations *)

(** The remote calls of a trace, in the order they were issued. *)
Definition remote_calls (trace : list Event) : list Event :=
  filter is_remote_call trace.

(** [p] performs only effects that [allowed] accepts, however the promises
    it awaits settle. *)
Fixpoint performs_only (allowed : Op -> bool) (p : Prog unit) : Prop :=
  match p with
  | Ret _ | Throw _ => True
  | Do op k => allowed op = true /\ performs_only allowed k
  | Await _ k => forall r, performs_only allowed (k r)
  | AwaitAll _ _ k => forall r, performs_only allowed (k r)
  end.

(** The effects of [handleGenerate]. *)
Definition generate_effect (op : Op) : bool :=
  match op with
  | setIsGenerating _ | setImages _ | setIsPurchaseModalOpen _
  | setIsEmailVerified _ | toast_error _ _ | toast_success _ _
  | console_error _ _ => true
  | _ => false
  end.

(** The fields [handleGenerate] has no setter call for. *)
Definition settings (st : State)
  : jsstring * jsstring * bool * bool * bool * Z :=
  (prompt st, apiKey st, isApiKeySet st, isVerificationLoading st,
   showTutorial st, tutorialStep st).

(** One run of the authentication listener. *)
Definition auth_changed (R : Remote) (st : State) (user : option User)
  : State * list Event * Completion unit :=
  run R (onAuthStateChanged user) st.

(** One run of the credential effect; it awaits nothing. *)
Definition credential_effect (envApiKey : jsstring)
  (initializeTogether : jsstring -> option Thrown) (st : State)
  : State * list Event :=
  fst (advance (apiKeyEffect envApiKey initializeTogether st) st).

(** Any number of steps of the page. *)
Inductive steps : World -> World -> Prop :=
| steps_refl w : steps w w
| steps_step w w' w'' : steps w w' -> step w' w'' -> steps w w''.

(** A page with the credential accepted and nothing typed yet. *)
Definition keyed : State := apply_op (setIsApiKeySet true) initialState.

(** A page with a prompt typed in and no credential. *)
Definition prompted : State := apply_op (setPrompt fox) initialState.

(** A service whose lookups are down. *)
Definition lookups_down : Remote :=
  service (Rejected (ErrorInstance (lit "unavailable")))
    (Rejected (ErrorInstance (lit "unavailable"))) (Resolved fox_image).

(** * Properties *)

Unset Implicit Arguments.

(** ** Strings *)

Lemma trimStart_blank (s : jsstring) :
  blank s = true -> trimStart s = [].
Proof.
  induction s as [|c s IH]; simpl; [reflexivity|].
  intros H. apply andb_true_iff in H as [Hc Hs].
  rewrite Hc. auto.
Qed.

Lemma trim_blank (s : jsstring) :
  blank s = true -> trim s = [].
Proof.
  intros H. unfold trim. rewrite (trimStart_blank s H). reflexivity.
Qed.

Lemma trimStart_nil_blank (s : jsstring) :
  trimStart s = [] -> blank s = true.
Proof.
  induction s as [|c s IH]; simpl; [reflexivity|].
  destruct (isWhiteSpace c); [auto | discriminate].
Qed.

Lemma trim_nil_blank (s : jsstring) :
  trim s = [] -> blank s = true.
Proof.
  unfold trim, trimEnd. intros H.
  apply trimStart_nil_blank.
  destruct (trimStart s) as [|c t] eqn:E; [reflexivity|].
  exfalso.
  assert (Hr : trimStart (rev (c :: t)) = []).
  { destruct (trimStart (rev (c :: t))); [reflexivity|].
    apply (f_equal (@List.length N)) in H.
    rewrite length_rev in H. discriminate. }
  apply trimStart_nil_blank in Hr.
  assert (Hc : isWhiteSpace c = true).
  { unfold blank in Hr. rewrite forallb_forall in Hr.
    apply Hr. apply in_rev. rewrite rev_involutive. left. reflexivity. }
  destruct s as [|d s']; [discriminate|].
  assert (Hhd : forall u, trimStart u = c :: t -> isWhiteSpace c = false).
  { induction u as [|x u IHu]; simpl; [discriminate|].
    destruct (isWhiteSpace x) eqn:Ex; [exact IHu|].
    intros Hx. injection Hx as -> _. exact Ex. }
  rewrite (Hhd _ E) in Hc. discriminate.
Qed.

(** [!prompt.trim()] holds exactly for the blank prompts. *)
Lemma not_trim_iff_blank (s : jsstring) :
  negb (truthy (trim s)) = blank s.
Proof.
  destruct (blank s) eqn:B.
  - rewrite (trim_blank s B). reflexivity.
  - destruct (trim s) eqn:T; [|reflexivity].
    apply trim_nil_blank in T. congruence.
Qed.

(** ** One attempt, run to completion *)

(** The head of [handleGenerate] when the three local checks pass. *)
Lemma handleGenerate_past_checks (st : State) (user : option User) :
  local_checks_pass st ->
  handleGenerate st user
  = Do (setIsGenerating true)
      match user with
      | None =>
          perform (toast_error msg_not_logged_in (red_toast 3000 IconZap)) ;;
          perform (setIsGenerating false)
      | Some user =>
          try_finally
            (try_catch (handleGenerate_try (prompt st) user)
               handleGenerate_catch)
            (perform (setIsGenerating false))
      end.
Proof.
  intros (Hbusy & Hprompt & Hkey). unfold handleGenerate.
  rewrite Hbusy, not_trim_iff_blank, Hprompt, Hkey. reflexivity.
Qed.

Arguments not_duplicate : simpl never.

Lemma attempt_busy (R : Remote) (st : State) (user : option User) :
  isGenerating st = true ->
  attempt R st user = (st, [], Normal tt).
Proof.
  intros Hbusy. unfold attempt, handleGenerate. rewrite Hbusy. reflexivity.
Qed.

Lemma attempt_blank (R : Remote) (st : State) (user : option User) :
  isGenerating st = false ->
  blank (prompt st) = true ->
  attempt R st user
  = (st,
     [Performed (toast_error msg_missing_prompt (red_toast 3000 IconZap))],
     Normal tt).
Proof.
  intros Hbusy Hblank. unfold attempt, handleGenerate.
  rewrite Hbusy, not_trim_iff_blank, Hblank. reflexivity.
Qed.

Lemma attempt_no_key (R : Remote) (st : State) (user : option User) :
  isGenerating st = false ->
  blank (prompt st) = false ->
  isApiKeySet st = false ->
  attempt R st user
  = (st,
     [Performed (toast_error msg_missing_key (red_toast 4000 IconZap))],
     Normal tt).
Proof.
  intros Hbusy Hblank Hkey. unfold attempt, handleGenerate.
  rewrite Hbusy, not_trim_iff_blank, Hblank, Hkey. reflexivity.
Qed.

Lemma attempt_signed_out (R : Remote) (st : State) :
  local_checks_pass st ->
  attempt R st None
  = (apply_op (setIsGenerating false) (apply_op (setIsGenerating true) st),
     [Performed (setIsGenerating true);
      Performed (toast_error msg_not_logged_in (red_toast 3000 IconZap));
      Performed (setIsGenerating false)],
     Normal tt).
Proof.
  intros Hadm. unfold attempt.
  rewrite handleGenerate_past_checks by assumption. reflexivity.
Qed.

Lemma attempt_unverified (R : Remote) (st : State) (user : User)
  (hasCredits : bool) :
  local_checks_pass st ->
  answer_checkEmailVerified R (uid user) = Resolved false ->
  answer_hasEnoughCredits R (uid user) = Resolved hasCredits ->
  attempt R st (Some user)
  = (apply_op (setIsGenerating false)
       (apply_op (setIsGenerating false)
          (apply_op (setIsEmailVerified (Some false))
             (apply_op (setIsGenerating true) st))),
     [Performed (setIsGenerating true);
      Issued (checkEmailVerified (uid user));
      Issued (hasEnoughCredits (uid user));
      Performed (setIsEmailVerified (Some false));
      Performed (toast_error msg_unverified (red_toast 4000 IconMail));
      Performed (setIsGenerating false);
      Performed (setIsGenerating false)],
     Normal tt).
Proof.
  intros Hadm Hv Hc. unfold attempt.
  rewrite handleGenerate_past_checks by assumption.
  cbn. rewrite Hv, Hc. reflexivity.
Qed.

Lemma attempt_insufficient (R : Remote) (st : State) (user : User) :
  local_checks_pass st ->
  answer_checkEmailVerified R (uid user) = Resolved true ->
  answer_hasEnoughCredits R (uid user) = Resolved false ->
  attempt R st (Some user)
  = (apply_op (setIsGenerating false)
       (apply_op (setIsGenerating false)
          (apply_op (setIsPurchaseModalOpen true)
             (apply_op (setIsEmailVerified (Some true))
                (apply_op (setIsGenerating true) st)))),
     [Performed (setIsGenerating true);
      Issued (checkEmailVerified (uid user));
      Issued (hasEnoughCredits (uid user));
      Performed (setIsEmailVerified (Some true));
      Performed (toast_error msg_insufficient (red_toast 4000 IconZap));
      Performed (setIsPurchaseModalOpen true);
      Performed (setIsGenerating false);
      Performed (setIsGenerating false)],
     Normal tt).
Proof.
  intros Hadm Hv Hc. unfold attempt.
  rewrite handleGenerate_past_checks by assumption.
  cbn. rewrite Hv, Hc. reflexivity.
Qed.

Lemma attempt_success (R : Remote) (st : State) (user : User)
  (newImage : GeneratedImage) :
  local_checks_pass st ->
  answer_checkEmailVerified R (uid user) = Resolved true ->
  answer_hasEnoughCredits R (uid user) = Resolved true ->
  answer_generateImage R (prompt st) = Resolved newImage ->
  attempt R st (Some user)
  = (apply_op (setIsGenerating false)
       (apply_op (setImages (cons newImage))
          (apply_op (setIsEmailVerified (Some true))
             (apply_op (setIsGenerating true) st))),
     [Performed (setIsGenerating true);
      Issued (checkEmailVerified (uid user));
      Issued (hasEnoughCredits (uid user));
      Performed (setIsEmailVerified (Some true));
      Issued (generateImage (prompt st));
      Performed (setImages (cons newImage));
      Performed (toast_success msg_success (green_toast 3000 IconSparkles));
      Performed (setIsGenerating false)],
     Normal tt).
Proof.
  intros Hadm Hv Hc Hg. unfold attempt.
  rewrite handleGenerate_past_checks by assumption.
  cbn. rewrite Hv, Hc. cbn. rewrite Hg. reflexivity.
Qed.

(** What the [catch] block shows for [e]. *)
Lemma attempt_checks_rejected (R : Remote) (st : State) (user : User)
  (e : Thrown) :
  local_checks_pass st ->
  promise_all (first_rejects_first R)
    (answer_checkEmailVerified R (uid user))
    (answer_hasEnoughCredits R (uid user)) = Rejected e ->
  attempt R st (Some user)
  = (apply_op (setIsGenerating false) (apply_op (setIsGenerating true) st),
     [Performed (setIsGenerating true);
      Issued (checkEmailVerified (uid user));
      Issued (hasEnoughCredits (uid user));
      Performed (console_error (lit "Error generating image:") e)]
     ++ (if not_duplicate e then [Performed generic_failure_notice] else [])
     ++ [Performed (setIsGenerating false)],
     Normal tt).
Proof.
  intros Hadm Hall. unfold attempt.
  rewrite handleGenerate_past_checks by assumption.
  cbn. rewrite Hall. cbn.
  destruct (not_duplicate e); reflexivity.
Qed.

Lemma attempt_generation_rejected (R : Remote) (st : State) (user : User)
  (e : Thrown) :
  local_checks_pass st ->
  answer_checkEmailVerified R (uid user) = Resolved true ->
  answer_hasEnoughCredits R (uid user) = Resolved true ->
  answer_generateImage R (prompt st) = Rejected e ->
  attempt R st (Some user)
  = (apply_op (setIsGenerating false)
       (apply_op (setIsEmailVerified (Some true))
          (apply_op (setIsGenerating true) st)),
     [Performed (setIsGenerating true);
      Issued (checkEmailVerified (uid user));
      Issued (hasEnoughCredits (uid user));
      Performed (setIsEmailVerified (Some true));
      Issued (generateImage (prompt st));
      Performed (console_error (lit "Error generating image:") e)]
     ++ (if not_duplicate e then [Performed generic_failure_notice] else [])
     ++ [Performed (setIsGenerating false)],
     Normal tt).
Proof.
  intros Hadm Hv Hc Hg. unfold attempt.
  rewrite handleGenerate_past_checks by assumption.
  cbn. rewrite Hv, Hc. cbn. rewrite Hg. cbn.
  destruct (not_duplicate e); reflexivity.
Qed.

(** ** Handlers that leave a field alone *)

Section SparesFacts.

Variable V : Type.
Variable writes : Op -> option V.
Variable guarded : forall X : Type, Call X -> bool.
Variable field : State -> V.

Hypothesis field_spared : forall op st,
  writes op = None -> field (apply_op op st) = field st.

Lemma advance_spares (p : Prog unit) : forall st,
  spares writes guarded p ->
  field (fst (fst (advance p st))) = field st
  /\ match snd (advance p st) with
     | Some s => suspension_spares writes guarded s
     | None => True
     end.
Proof.
  induction p as [a|e|op k IH|X c k IH|X Y c1 c2 k IH];
    intros st Hs; simpl in *; auto.
  destruct Hs as [Hw Hk].
  specialize (IH (apply_op op st) Hk).
  destruct (advance k (apply_op op st)) as [[st' tr] s]; simpl in *.
  rewrite (field_spared _ _ Hw) in IH. exact IH.
Qed.

Lemma dispatch_spares (h : Handler) (p : Prog unit) (user : option User)
  (rest : list Task) (w : World) :
  spares writes guarded p ->
  Forall (fun t => suspension_spares writes guarded (waiting t)) rest ->
  field (ui (dispatch h p user rest w)) = field (ui w)
  /\ all_spare writes guarded (dispatch h p user rest w).
Proof.
  intros Hp Hrest. unfold dispatch, all_spare.
  destruct (advance_spares p (ui w) Hp) as [Hf Hs].
  destruct (advance p (ui w)) as [[st' tr] s]; simpl in *.
  split; [exact Hf|].
  apply Forall_app. split; [exact Hrest|].
  destruct s; simpl; auto.
Qed.

End SparesFacts.

(** ** The busy-flag discipline *)

Lemma Handler_eqb_eq (h1 h2 : Handler) :
  Handler_eqb h1 h2 = true -> h1 = h2.
Proof. destruct h1, h2; simpl; congruence. Qed.

Lemma Handler_eqb_refl (h : Handler) : Handler_eqb h h = true.
Proof. destruct h; reflexivity. Qed.

Section BusyFlagFacts.

Variable writes : Op -> option bool.
Variable guarded : forall X : Type, Call X -> bool.
Variable owner : Handler.
Variable flag : State -> bool.

Hypothesis flag_apply_op : forall op st,
  flag (apply_op op st)
  = match writes op with Some b => b | None => flag st end.

Lemma advance_holds (p : Prog unit) : forall busy st,
  holds writes busy p -> flag st = busy ->
  match snd (advance p st) with
  | None => flag (fst (fst (advance p st))) = false
  | Some s =>
      flag (fst (fst (advance p st))) = true /\ suspension_holds writes s
  end.
Proof.
  induction p as [a|e|op k IH|X c k IH|X Y c1 c2 k IH];
    intros busy st Hh <-; simpl in *; auto.
  specialize (IH _ (apply_op op st) Hh (flag_apply_op _ _)).
  destruct (advance k (apply_op op st)) as [[st' tr] s]. exact IH.
Qed.

Lemma run_holds (R : Remote) (p : Prog unit) : forall busy st,
  holds writes busy p -> flag st = busy ->
  flag (final (run R p st)) = false.
Proof.
  unfold final.
  induction p as [a|e|op k IH|X c k IH|X Y c1 c2 k IH];
    intros busy st Hh <-; simpl in *; auto.
  - specialize (IH _ (apply_op op st) Hh (flag_apply_op _ _)).
    destruct (run R k (apply_op op st)) as [[st' tr] c]. exact IH.
  - destruct Hh as [Hf Hk].
    specialize (IH (respond R c) true st (Hk _) Hf).
    destruct (run R (k (respond R c)) st) as [[st' tr] c']. exact IH.
  - destruct Hh as [Hf Hk].
    set (r := promise_all _ _ _).
    specialize (IH r true st (Hk _) Hf).
    destruct (run R (k r) st) as [[st' tr] c']. exact IH.
Qed.

Lemma filter_own_suspended (h : Handler) (s : option Suspension)
  (rest : list Task) :
  List.length (filter (from_handler owner) (rest ++ suspended h s))
  = List.length (filter (from_handler owner) rest)
    + (if Handler_eqb owner h
       then match s with Some _ => 1 | None => 0 end
       else 0).
Proof.
  rewrite filter_app, length_app. f_equal.
  destruct s as [s|]; simpl.
  - unfold from_handler; simpl. destruct (Handler_eqb owner h); reflexivity.
  - destruct (Handler_eqb owner h); reflexivity.
Qed.

(** The owner's body, started (or resumed) when no other task of the owner
    is in flight. *)
Lemma dispatch_owner (p : Prog unit) (user : option User)
  (rest : list Task) (w : World) :
  Forall (task_disciplined writes guarded owner) rest ->
  List.length (filter (from_handler owner) rest) = 0 ->
  holds writes (flag (ui w)) p ->
  disciplined writes guarded owner flag (dispatch owner p user rest w).
Proof.
  intros Hrest Hnone Hp.
  pose proof (advance_holds p (flag (ui w)) (ui w) Hp eq_refl) as Ha.
  unfold disciplined, tasks, dispatch.
  destruct (advance p (ui w)) as [[st' tr] s]; simpl in *.
  rewrite filter_own_suspended, Hnone.
  pose proof (Handler_eqb_refl owner) as Hoo.
  rewrite Hoo.
  destruct s as [s|]; simpl.
  - destruct Ha as [Hf Hs]. repeat split; auto.
    apply Forall_app. split; [exact Hrest|].
    constructor; [|constructor].
    unfold task_disciplined, from_handler; simpl. rewrite Hoo. exact Hs.
  - repeat split; auto. rewrite app_nil_r. exact Hrest.
Qed.

(** The body of any other handler. *)
Lemma dispatch_other (h : Handler) (p : Prog unit) (user : option User)
  (rest : list Task) (w : World) :
  Handler_eqb owner h = false ->
  Forall (task_disciplined writes guarded owner) rest ->
  List.length (filter (from_handler owner) rest) <= 1 ->
  flag (ui w) = negb (List.length (filter (from_handler owner) rest) =? 0) ->
  spares writes guarded p ->
  disciplined writes guarded owner flag (dispatch h p user rest w).
Proof.
  intros Hh Hrest Hle Hflag Hp.
  assert (Hsp : forall op st, writes op = None ->
                  flag (apply_op op st) = flag st).
  { intros op st Hw. rewrite flag_apply_op, Hw. reflexivity. }
  destruct (advance_spares bool writes guarded flag Hsp p (ui w) Hp) as [Hf Hs].
  unfold disciplined, tasks, dispatch.
  destruct (advance p (ui w)) as [[st' tr] s]; simpl in *.
  rewrite filter_own_suspended, Hh, Nat.add_0_r.
  repeat split; auto; [|congruence].
  apply Forall_app. split; [exact Hrest|].
  destruct s as [s|]; simpl; [|constructor].
  constructor; [|constructor].
  unfold task_disciplined, from_handler; simpl. rewrite Hh. exact Hs.
Qed.

Lemma dispatch_noop (h : Handler) (user : option User) (w : World) :
  disciplined writes guarded owner flag w ->
  disciplined writes guarded owner flag
    (dispatch h (Ret tt) user (inflight w) w).
Proof.
  unfold disciplined, tasks, dispatch; simpl.
  rewrite app_nil_r. auto.
Qed.

(** Starting a handler keeps the discipline. *)
Lemma start_disciplined (h : Handler) (p : Prog unit) (user : option User)
  (w : World) :
  handler_disciplined writes guarded owner flag h p (ui w) ->
  disciplined writes guarded owner flag w ->
  disciplined writes guarded owner flag (dispatch h p user (inflight w) w).
Proof.
  intros Hp Hw. unfold handler_disciplined in Hp.
  destruct (Handler_eqb owner h) eqn:Hh.
  - apply Handler_eqb_eq in Hh as <-.
    destruct Hp as [[_ ->]|[Hf Hp]].
    + apply dispatch_noop. exact Hw.
    + destruct Hw as (Hall & Hle & Hflag).
      apply dispatch_owner; auto.
      * unfold tasks in Hflag. rewrite Hf in Hflag.
        destruct (List.length (filter (from_handler owner) (inflight w)));
          [reflexivity|discriminate].
      * rewrite Hf. exact Hp.
  - destruct Hw as (Hall & Hle & Hflag).
    apply dispatch_other; auto.
Qed.

(** Resuming a task keeps the discipline. *)
Lemma resume_disciplined (t : Task) (p : Prog unit)
  (before after : list Task) (w : World) :
  inflight w = before ++ t :: after ->
  (if from_handler owner t then holds writes true p
   else spares writes guarded p) ->
  disciplined writes guarded owner flag w ->
  disciplined writes guarded owner flag
    (dispatch (origin t) p (currentUser w) (before ++ after) w).
Proof.
  intros Hin Hp (Hall & Hle & Hflag).
  unfold tasks in Hle, Hflag. 
  rewrite Hin in Hall, Hle, Hflag.
  rewrite filter_app, length_app in Hle, Hflag. simpl in Hle, Hflag.
  apply Forall_app in Hall as [Hb Ha]. inversion Ha as [|? ? Ht Ha']; subst.
  assert (Hrest : Forall (task_disciplined writes guarded owner)
                    (before ++ after))
    by (apply Forall_app; split; assumption).
  destruct (from_handler owner t) eqn:Hown.
  - simpl in Hle, Hflag.
    rewrite <- (Handler_eqb_eq _ _ Hown).
    apply dispatch_owner; auto.
    + rewrite filter_app, length_app. lia.
    + replace (flag (ui w)) with true; [exact Hp|].
      rewrite Hflag.
      destruct (List.length (filter (from_handler owner) before)
                + S (List.length (filter (from_handler owner) after)))
        eqn:E; [lia|reflexivity].
  - apply dispatch_other; auto.
    + rewrite filter_app, length_app. exact Hle.
    + rewrite filter_app, length_app. exact Hflag.
Qed.

Hypothesis handlers_disciplined : forall input st user,
  handler_disciplined writes guarded owner flag
    (fst (handler_of input st user)) (snd (handler_of input st user)) st.

Lemma step_disciplined (w w' : World) :
  step w w' ->
  disciplined writes guarded owner flag w ->
  disciplined writes guarded owner flag w'.
Proof.
  intros Hstep Hw.
  destruct Hstep as [w input|w h X c k before after r Hin
                    |w h X Y c1 c2 k before after r1 r2 first Hin].
  - unfold deliver. apply start_disciplined; auto.
  - apply (resume_disciplined {| origin := h; waiting := OnCall c k |}
             (k r) before after w Hin); auto.
    destruct Hw as (Hall & _). rewrite Hin in Hall.
    apply Forall_app in Hall as [_ Ha]. inversion Ha as [|? ? Ht _]; subst.
    unfold task_disciplined in Ht.
    destruct (from_handler owner _); simpl in Ht; [apply Ht|apply Ht].
  - apply (resume_disciplined {| origin := h; waiting := OnAll c1 c2 k |}
             (k (promise_all first r1 r2)) before after w Hin); auto.
    destruct Hw as (Hall & _). rewrite Hin in Hall.
    apply Forall_app in Hall as [_ Ha]. inversion Ha as [|? ? Ht _]; subst.
    unfold task_disciplined in Ht.
    destruct (from_handler owner _); simpl in Ht; [apply Ht|apply Ht].
Qed.

Hypothesis flag_initially_clear : flag initialState = false.

Lemma reachable_disciplined (w : World) :
  reachable w -> disciplined writes guarded owner flag w.
Proof.
  induction 1 as [user|w w' _ IH Hstep].
  - unfold disciplined, tasks; simpl. auto.
  - exact (step_disciplined w w' Hstep IH).
Qed.

(** Tasks that wait on the guarded call belong to the owner. *)
Lemma guarded_tasks_bound (awaits : Task -> bool) (w : World) :
  (forall t, awaits t = true ->
     match waiting t with
     | OnCall c _ => guarded _ c = true
     | OnAll c1 c2 _ => guarded _ c1 = true \/ guarded _ c2 = true
     end) ->
  disciplined writes guarded owner flag w ->
  tasks awaits w <= tasks (from_handler owner) w.
Proof.
  intros Hawaits (Hall & _). unfold tasks.
  induction Hall as [|t l Ht _ IH]; simpl; [lia|].
  destruct (awaits t) eqn:Ea; simpl.
  - destruct (from_handler owner t) eqn:Eo; simpl; [lia|].
    exfalso. specialize (Hawaits t Ea).
    unfold task_disciplined in Ht. rewrite Eo in Ht.
    destruct (waiting t); simpl in Ht.
    + destruct Ht as [Hg _]. congruence.
    + destruct Ht as (Hg1 & Hg2 & _). destruct Hawaits; congruence.
  - destruct (from_handler owner t); simpl; lia.
Qed.

End BusyFlagFacts.

(** ** The handlers of the page and the two busy flags *)

Ltac prog_cases :=
  repeat first
    [ progress cbn
    | reflexivity
    | match goal with
      | |- _ /\ _ => split
      | |- True => exact I
      | |- forall _ : Result _, _ => intros [?|?]
      | |- context [not_duplicate ?e] => destruct (not_duplicate e)
      | |- context [if ?b then _ else _] => destruct b
      | |- context [match ?x with _ => _ end] => destruct x
      end ].

Lemma isGenerating_apply_op (op : Op) (st : State) :
  isGenerating (apply_op op st)
  = match writes_isGenerating op with
    | Some b => b
    | None => isGenerating st
    end.
Proof. destruct op; reflexivity. Qed.

Lemma isVerificationLoading_apply_op (op : Op) (st : State) :
  isVerificationLoading (apply_op op st)
  = match writes_isVerificationLoading op with
    | Some b => b
    | None => isVerificationLoading st
    end.
Proof. destruct op; reflexivity. Qed.

(** Past the re-entry guard, [handleGenerate] holds [isGenerating]. *)
Lemma handleGenerate_holds (st : State) (user : option User) :
  isGenerating st = false ->
  holds writes_isGenerating false (handleGenerate st user).
Proof.
  intros Hbusy. unfold handleGenerate. rewrite Hbusy.
  prog_cases.
Qed.

Lemma handleResendVerification_holds (user : option User) :
  holds writes_isVerificationLoading false (handleResendVerification user).
Proof. unfold handleResendVerification. prog_cases. Qed.

Lemma generate_discipline (input : Input) (st : State) (user : option User) :
  handler_disciplined writes_isGenerating is_generateImage HGenerate
    isGenerating
    (fst (handler_of input st user)) (snd (handler_of input st user)) st.
Proof.
  destruct input; unfold handler_disciplined; simpl.
  - destruct (isGenerating st) eqn:Hbusy.
    + left. split; [reflexivity|]. unfold handleGenerate. rewrite Hbusy.
      reflexivity.
    + right. split; [reflexivity|]. apply handleGenerate_holds. exact Hbusy.
  - unfold clickResend, handleResendVerification. prog_cases.
  - unfold handleNextTutorial. prog_cases.
  - prog_cases.
  - prog_cases.
  - unfold apiKeyEffect. prog_cases.
  - prog_cases.
  - prog_cases.
  - unfold onAuthStateChanged, checkVerification. prog_cases.
Qed.

Lemma resend_discipline (input : Input) (st : State) (user : option User) :
  handler_disciplined writes_isVerificationLoading is_sendVerificationEmail
    HResend isVerificationLoading
    (fst (handler_of input st user)) (snd (handler_of input st user)) st.
Proof.
  destruct input; unfold handler_disciplined; simpl.
  - unfold handleGenerate. prog_cases.
  - unfold clickResend, renderVerificationBanner.
    destruct (isVerificationLoading st) eqn:Hbusy.
    + left. split; [reflexivity|].
      destruct user as [u|]; [destruct (isEmailVerified st) as [[]|]|];
        reflexivity.
    + right. split; [reflexivity|].
      destruct user as [u|]; [destruct (isEmailVerified st) as [[]|]|];
        try reflexivity.
      apply handleResendVerification_holds.
  - unfold handleNextTutorial. prog_cases.
  - prog_cases.
  - prog_cases.
  - unfold apiKeyEffect. prog_cases.
  - prog_cases.
  - prog_cases.
  - unfold onAuthStateChanged, checkVerification. prog_cases.
Qed.

(** At most one invocation of [handleGenerate] is in flight, and
    [isGenerating] is set exactly while there is one. *)
Lemma reachable_generate (w : World) :
  reachable w ->
  disciplined writes_isGenerating is_generateImage HGenerate isGenerating w.
Proof.
  apply reachable_disciplined.
  - exact isGenerating_apply_op.
  - exact generate_discipline.
  - reflexivity.
Qed.

(** At most one invocation of [handleResendVerification] is in flight, and
    [isVerificationLoading] is set exactly while there is one. *)
Lemma reachable_resend (w : World) :
  reachable w ->
  disciplined writes_isVerificationLoading is_sendVerificationEmail HResend
    isVerificationLoading w.
Proof.
  apply reachable_disciplined.
  - exact isVerificationLoading_apply_op.
  - exact resend_discipline.
  - reflexivity.
Qed.

(** ** The gallery *)

Lemma advance_gallery_grows (p : Prog unit) : forall st,
  gallery_grows p ->
  (exists added,
     images (fst (fst (advance p st))) = added ++ images st)
  /\ match snd (advance p st) with
     | Some s => suspension_grows s
     | None => True
     end.
Proof.
  induction p as [a|e|op k IH|X c k IH|X Y c1 c2 k IH];
    intros st Hp; simpl in *;
    try (split; [exists []; reflexivity | auto]).
  destruct Hp as [Hop Hk].
  specialize (IH (apply_op op st) Hk).
  destruct (advance k (apply_op op st)) as [[st' tr] s]; simpl in *.
  destruct IH as [[added Hadded] Hs]. split; [|exact Hs].
  rewrite Hadded.
  destruct op; simpl in *; try (exists added; reflexivity).
  destruct Hop as [newImage ->].
  exists (added ++ [newImage]). rewrite <- app_assoc. reflexivity.
Qed.

Lemma handlers_grow_gallery (input : Input) (st : State)
  (user : option User) :
  gallery_grows (snd (handler_of input st user)).
Proof.
  destruct input; simpl.
  - assert (Hok : forall newImage : GeneratedImage,
              exists img, cons newImage = cons img)
      by (intros newImage; exists newImage; reflexivity).
    unfold handleGenerate. prog_cases; apply Hok.
  - unfold clickResend, handleResendVerification. prog_cases.
  - unfold handleNextTutorial. prog_cases.
  - prog_cases.
  - prog_cases.
  - unfold apiKeyEffect. prog_cases.
  - prog_cases.
  - prog_cases.
  - unfold onAuthStateChanged, checkVerification. prog_cases.
Qed.

Lemma dispatch_gallery_grows (h : Handler) (p : Prog unit)
  (user : option User) (rest : list Task) (w : World) :
  gallery_grows p ->
  Forall (fun t => suspension_grows (waiting t)) rest ->
  (exists added, images (ui (dispatch h p user rest w))
                 = added ++ images (ui w))
  /\ all_grow (dispatch h p user rest w).
Proof.
  intros Hp Hrest. unfold dispatch, all_grow.
  destruct (advance_gallery_grows p (ui w) Hp) as [Hadded Hs].
  destruct (advance p (ui w)) as [[st' tr] s]; simpl in *.
  split; [exact Hadded|].
  apply Forall_app. split; [exact Hrest|].
  destruct s; simpl; auto.
Qed.

Lemma step_gallery_grows (w w' : World) :
  all_grow w ->
  step w w' ->
  (exists added, images (ui w') = added ++ images (ui w)) /\ all_grow w'.
Proof.
  intros Hall Hstep.
  destruct Hstep as [w input|w h X c k before after r Hin
                    |w h X Y c1 c2 k before after r1 r2 first Hin].
  - unfold deliver. apply dispatch_gallery_grows; [|exact Hall].
    apply handlers_grow_gallery.
  - unfold all_grow in Hall. rewrite Hin in Hall.
    apply Forall_app in Hall as [Hb Ha].
    inversion Ha as [|? ? Hk Ha']; subst. simpl in Hk.
    apply dispatch_gallery_grows; [apply Hk|].
    apply Forall_app; auto.
  - unfold all_grow in Hall. rewrite Hin in Hall.
    apply Forall_app in Hall as [Hb Ha].
    inversion Ha as [|? ? Hk Ha']; subst. simpl in Hk.
    apply dispatch_gallery_grows; [apply Hk|].
    apply Forall_app; auto.
Qed.

Lemma reachable_all_grow (w : World) : reachable w -> all_grow w.
Proof.
  induction 1 as [user|w w' _ IH Hstep].
  - constructor.
  - exact (proj2 (step_gallery_grows w w' IH Hstep)).
Qed.

(** Whatever happens on the page, the gallery only grows at the front:
    what was in it stays, in the same order. *)
Lemma gallery_only_grows (w w' : World) :
  reachable w ->
  step w w' ->
  exists added, images (ui w') = added ++ images (ui w).
Proof.
  intros Hreach Hstep.
  exact (proj1 (step_gallery_grows w w' (reachable_all_grow w Hreach) Hstep)).
Qed.

(** ** Sessions *)

Lemma step_settle_oldest (R : Remote) (w : World) :
  inflight w <> [] -> step w (settle_oldest R w).
Proof.
  unfold settle_oldest. destruct (inflight w) as [|[h s] rest] eqn:E;
    [congruence|intros _].
  destruct s as [X c k|X Y c1 c2 k]; simpl.
  - apply step_settle with (c := c) (before := []) (after := rest). exact E.
  - apply step_settle_all with (c1 := c1) (c2 := c2) (before := [])
      (after := rest). exact E.
Qed.

Lemma reachable_session_checking : reachable session_checking.
Proof.
  unfold session_checking.
  repeat (eapply reachable_step; [|apply step_input]).
  apply reachable_mount.
Qed.

Lemma reachable_session_generating : reachable session_generating.
Proof.
  eapply reachable_step; [exact reachable_session_checking|].
  apply step_settle_oldest. discriminate.
Qed.

Lemma reachable_session_resending : reachable session_resending.
Proof.
  unfold session_resending.
  eapply reachable_step; [|apply step_input].
  eapply reachable_step; [|apply step_settle_oldest; discriminate].
  eapply reachable_step; [|apply step_input].
  apply reachable_mount.
Qed.

Example session_generating_inflight :
  tasks awaits_generateImage session_generating = 1
  /\ isGenerating (ui session_generating) = true.
Proof. split; reflexivity. Qed.

Example session_resending_inflight :
  tasks awaits_sendVerificationEmail session_resending = 1
  /\ isVerificationLoading (ui session_resending) = true.
Proof. split; reflexivity. Qed.

(** ** The gate sequencer *)

(** A remote call is issued only by an invocation that passed the re-entry
    guard and the local checks, for a signed-in user. *)
Lemma issues_past_checks (f : Event -> bool) (R : Remote) (st : State)
  (user : option User) :
  (forall op, f (Performed op) = false) ->
  issues f (attempt R st user) ->
  local_checks_pass st /\ exists u, user = Some u.
Proof.
  intros Hf Hcall. unfold issues, local_checks_pass in *.
  destruct (isGenerating st) eqn:Hbusy.
  { rewrite (attempt_busy R st user Hbusy) in Hcall. contradiction. }
  destruct (blank (prompt st)) eqn:Hblank.
  { rewrite (attempt_blank R st user Hbusy Hblank) in Hcall.
    unfold count, trace in Hcall; simpl in Hcall. rewrite Hf in Hcall.
    contradiction. }
  destruct (isApiKeySet st) eqn:Hkey.
  2: { rewrite (attempt_no_key R st user Hbusy Hblank Hkey) in Hcall.
       unfold count, trace in Hcall; simpl in Hcall. rewrite Hf in Hcall.
       contradiction. }
  destruct user as [user|]; [repeat split; exists user; reflexivity|].
  rewrite (attempt_signed_out R st) in Hcall by (repeat split; assumption).
  unfold count, trace in Hcall; simpl in Hcall. rewrite !Hf in Hcall.
  contradiction.
Qed.

(** The generation call is issued only when both lookups answer [true]. *)
Lemma generation_issued (R : Remote) (st : State) (user : option User) :
  issues is_generation_call (attempt R st user) ->
  local_checks_pass st
  /\ exists u, user = Some u
       /\ answer_checkEmailVerified R (uid u) = Resolved true
       /\ answer_hasEnoughCredits R (uid u) = Resolved true.
Proof.
  intros Hcall.
  destruct (issues_past_checks _ R st user (fun _ => eq_refl) Hcall)
    as [Hpass [u ->]].
  split; [exact Hpass|]. exists u. split; [reflexivity|].
  unfold issues in Hcall.
  destruct (answer_checkEmailVerified R (uid u)) as [[|]|ev] eqn:Hv;
    destruct (answer_hasEnoughCredits R (uid u)) as [[|]|ec] eqn:Hc;
    try (split; reflexivity); exfalso; revert Hcall.
  - rewrite (attempt_insufficient R st u Hpass Hv Hc). intros H; apply H.
    reflexivity.
  - rewrite (attempt_checks_rejected R st u ec Hpass)
      by (rewrite Hv, Hc; reflexivity).
    destruct (not_duplicate ec); intros H; apply H; reflexivity.
  - rewrite (attempt_unverified R st u true Hpass Hv Hc). intros H; apply H.
    reflexivity.
  - rewrite (attempt_unverified R st u false Hpass Hv Hc). intros H; apply H.
    reflexivity.
  - rewrite (attempt_checks_rejected R st u ec Hpass)
      by (rewrite Hv, Hc; reflexivity).
    destruct (not_duplicate ec); intros H; apply H; reflexivity.
  - rewrite (attempt_checks_rejected R st u ev Hpass)
      by (rewrite Hv, Hc; reflexivity).
    destruct (not_duplicate ev); intros H; apply H; reflexivity.
  - rewrite (attempt_checks_rejected R st u ev Hpass)
      by (rewrite Hv, Hc; reflexivity).
    destruct (not_duplicate ev); intros H; apply H; reflexivity.
  - rewrite (attempt_checks_rejected R st u
               (if first_rejects_first R then ev else ec) Hpass)
      by (rewrite Hv, Hc; reflexivity).
    destruct (not_duplicate _); intros H; apply H; reflexivity.
Qed.

(** C1. In an attempt that passes the local checks (the trimmed prompt is
    not empty, the credential is ready, a user is signed in), when the
    verification lookup is made and answers [false], the only notice is
    "unverified email", whatever the credit lookup answers; no generation
    call is issued and the purchase flow is not opened. *)
Theorem unverified_email_precedes_credits
  (R : Remote) (st : State) (user : User) (hasCredits : bool) :
  blank (prompt st) = false ->
  isApiKeySet st = true ->
  issues is_verification_lookup (attempt R st (Some user)) ->
  answer_checkEmailVerified R (uid user) = Resolved false ->
  answer_hasEnoughCredits R (uid user) = Resolved hasCredits ->
  toasts (trace (attempt R st (Some user)))
  = [toast_error msg_unverified (red_toast 4000 IconMail)]
  /\ ~ In (toast_error msg_insufficient (red_toast 4000 IconZap))
         (toasts (trace (attempt R st (Some user))))
  /\ count is_generation_call (trace (attempt R st (Some user))) = 0
  /\ count opens_purchase_flow (trace (attempt R st (Some user))) = 0
  /\ isPurchaseModalOpen (final (attempt R st (Some user)))
     = isPurchaseModalOpen st.
Proof.
  intros _ _ Hfetch Hv Hc.
  destruct (issues_past_checks _ R st _ (fun _ => eq_refl) Hfetch)
    as [Hpass _].
  rewrite (attempt_unverified R st user hasCredits Hpass Hv Hc).
  repeat split.
  intros [H|[]]. discriminate H.
Qed.

Lemma unverified_email_precedes_credits_witness :
  toasts (trace (attempt
                   (service (Resolved false) (Resolved true)
                      (Resolved fox_image))
                   ready (Some alice)))
  = [toast_error msg_unverified (red_toast 4000 IconMail)].
Proof.
  apply (unverified_email_precedes_credits
           (service (Resolved false) (Resolved true) (Resolved fox_image))
           ready alice true).
  - reflexivity.
  - reflexivity.
  - vm_compute. discriminate.
  - reflexivity.
  - reflexivity.
Defined.

(** C7. In an attempt that passes the local checks, when the lookups are
    made, the verification lookup answers [true] and the credit lookup
    answers [false], the only notice is "insufficient credits", the
    purchase modal is opened exactly once, and no generation call is
    issued. *)
Theorem insufficient_credits_opens_purchase_flow
  (R : Remote) (st : State) (user : User) :
  blank (prompt st) = false ->
  isApiKeySet st = true ->
  issues is_verification_lookup (attempt R st (Some user)) ->
  answer_checkEmailVerified R (uid user) = Resolved true ->
  answer_hasEnoughCredits R (uid user) = Resolved false ->
  toasts (trace (attempt R st (Some user)))
  = [toast_error msg_insufficient (red_toast 4000 IconZap)]
  /\ count opens_purchase_flow (trace (attempt R st (Some user))) = 1
  /\ isPurchaseModalOpen (final (attempt R st (Some user))) = true
  /\ count is_generation_call (trace (attempt R st (Some user))) = 0.
Proof.
  intros _ _ Hfetch Hv Hc.
  destruct (issues_past_checks _ R st _ (fun _ => eq_refl) Hfetch)
    as [Hpass _].
  rewrite (attempt_insufficient R st user Hpass Hv Hc).
  repeat split.
Qed.

Lemma insufficient_credits_opens_purchase_flow_witness :
  count opens_purchase_flow
    (trace (attempt
              (service (Resolved true) (Resolved false) (Resolved fox_image))
              ready (Some alice))) = 1
  /\ count is_generation_call
       (trace (attempt
                 (service (Resolved true) (Resolved false)
                    (Resolved fox_image))
                 ready (Some alice))) = 0.
Proof.
  destruct (insufficient_credits_opens_purchase_flow
              (service (Resolved true) (Resolved false) (Resolved fox_image))
              ready alice) as (_ & Hopen & _ & Hgen).
  - reflexivity.
  - reflexivity.
  - vm_compute. discriminate.
  - reflexivity.
  - reflexivity.
  - split; [exact Hopen | exact Hgen].
Defined.

(** C2, as the code has it. For a blank prompt (empty, or white space
    only) an invocation of [handleGenerate] issues no remote call, changes
    no state and ends normally; it reports "missing prompt", and nothing
    else, when the page is not generating, and reports nothing when it is
    (the re-entry guard comes first). *)
Theorem blank_prompt_is_rejected_locally
  (R : Remote) (st : State) (user : option User) :
  blank (prompt st) = true ->
  count is_remote_call (trace (attempt R st user)) = 0
  /\ final (attempt R st user) = st
  /\ completion (attempt R st user) = Normal tt
  /\ toasts (trace (attempt R st user))
     = if isGenerating st then []
       else [toast_error msg_missing_prompt (red_toast 3000 IconZap)].
Proof.
  intros Hblank. destruct (isGenerating st) eqn:Hbusy.
  - rewrite (attempt_busy R st user Hbusy). repeat split.
  - rewrite (attempt_blank R st user Hbusy Hblank). repeat split.
Qed.

Lemma blank_prompt_is_rejected_locally_witness :
  toasts (trace (attempt
                   (service (Resolved true) (Resolved true)
                      (Resolved fox_image))
                   initialState (Some alice)))
  = [toast_error msg_missing_prompt (red_toast 3000 IconZap)].
Proof.
  apply (blank_prompt_is_rejected_locally
           (service (Resolved true) (Resolved true) (Resolved fox_image))
           initialState (Some alice)).
  reflexivity.
Defined.

(** C2, as stated, fails: with a blank prompt on a page that is
    generating, the invocation reports nothing. *)
Lemma blank_prompt_while_busy_reports_nothing :
  blank (prompt busy_blank) = true
  /\ toasts (trace (attempt
                      (service (Resolved true) (Resolved true)
                         (Resolved fox_image))
                      busy_blank (Some alice))) = []
  /\ toasts (trace (attempt
                      (service (Resolved true) (Resolved true)
                         (Resolved fox_image))
                      busy_blank (Some alice)))
     <> [toast_error msg_missing_prompt (red_toast 3000 IconZap)].
Proof. repeat split. discriminate. Qed.

(** ** The generation invoker *)

(** C5. A successful generation (the generation call is issued and
    resolves with a new image) prepends the new image to the gallery: the
    gallery afterwards is the new image followed by the prior contents,
    whatever they are. *)
Theorem successful_generation_prepends
  (R : Remote) (st : State) (user : option User)
  (newImage : GeneratedImage) :
  issues is_generation_call (attempt R st user) ->
  answer_generateImage R (prompt st) = Resolved newImage ->
  images (final (attempt R st user)) = newImage :: images st.
Proof.
  intros Hcall Hg.
  destruct (generation_issued R st user Hcall)
    as (Hpass & u & -> & Hv & Hc).
  rewrite (attempt_success R st u newImage Hpass Hv Hc Hg). reflexivity.
Qed.

Lemma successful_generation_prepends_witness :
  images (final (attempt
                   (service (Resolved true) (Resolved true)
                      (Resolved fox_image))
                   ready_with_gallery (Some alice)))
  = [fox_image; fox_image].
Proof.
  apply (successful_generation_prepends
           (service (Resolved true) (Resolved true) (Resolved fox_image))
           ready_with_gallery (Some alice) fox_image).
  - vm_compute. discriminate.
  - reflexivity.
Defined.

(** The two ways the remote phase fails, as runs of the handler. *)
Lemma failed_attempt (R : Remote) (st : State) (user : User) (e : Thrown) :
  remote_phase_fails R st user e ->
  exists st' before,
    attempt R st (Some user)
    = (apply_op (setIsGenerating false) st',
       before
       ++ [Performed (console_error (lit "Error generating image:") e)]
       ++ (if not_duplicate e then [Performed generic_failure_notice]
           else [])
       ++ [Performed (setIsGenerating false)],
       Normal tt)
    /\ images st' = images st
    /\ toasts before = [].
Proof.
  intros [[Hcall Hall]|[Hcall Hg]].
  - destruct (issues_past_checks _ R st _ (fun _ => eq_refl) Hcall)
      as [Hpass _].
    rewrite (attempt_checks_rejected R st user e Hpass Hall).
    eexists. exists [Performed (setIsGenerating true);
                     Issued (checkEmailVerified (uid user));
                     Issued (hasEnoughCredits (uid user))].
    repeat split.
  - destruct (generation_issued R st _ Hcall)
      as (Hpass & u & Hu & Hv & Hc).
    injection Hu as <-.
    rewrite (attempt_generation_rejected R st user e Hpass Hv Hc Hg).
    eexists. exists [Performed (setIsGenerating true);
                     Issued (checkEmailVerified (uid user));
                     Issued (hasEnoughCredits (uid user));
                     Performed (setIsEmailVerified (Some true));
                     Issued (generateImage (prompt st))].
    repeat split.
Qed.

Lemma toasts_app (t1 t2 : list Event) :
  toasts (t1 ++ t2) = toasts t1 ++ toasts t2.
Proof. unfold toasts. apply flat_map_app. Qed.

(** What an attempt shows when its remote phase fails with [e]. *)
Lemma failed_attempt_toasts (R : Remote) (st : State) (user : User)
  (e : Thrown) :
  remote_phase_fails R st user e ->
  toasts (trace (attempt R st (Some user)))
  = if not_duplicate e then [generic_failure_notice] else [].
Proof.
  intros Hfail.
  destruct (failed_attempt R st user e Hfail)
    as (st' & before & -> & _ & Hquiet).
  unfold trace; simpl. rewrite toasts_app, Hquiet. simpl.
  destruct (not_duplicate e); reflexivity.
Qed.

Lemma failed_attempt_final (R : Remote) (st : State) (user : User)
  (e : Thrown) :
  remote_phase_fails R st user e ->
  isGenerating (final (attempt R st (Some user))) = false
  /\ images (final (attempt R st (Some user))) = images st
  /\ In (Performed (console_error (lit "Error generating image:") e))
       (trace (attempt R st (Some user))).
Proof.
  intros Hfail.
  destruct (failed_attempt R st user e Hfail)
    as (st' & before & -> & Himages & _).
  repeat split; [exact Himages|].
  unfold trace; simpl. apply in_or_app. right. left. reflexivity.
Qed.

(** C8, as the code has it. When the remote phase of an attempt fails with
    [e]: an [Error] whose message contains "Insufficient credits" or
    "Email not verified" shows no notice; any other [Error] shows exactly
    one notice, the generic one; a thrown value that is not an [Error]
    shows no notice. *)
Theorem failure_notices
  (R : Remote) (st : State) (user : User) (e : Thrown) :
  remote_phase_fails R st user e ->
  (forall message, e = ErrorInstance message ->
     includes message (lit "Insufficient credits") = true
     \/ includes message (lit "Email not verified") = true ->
     toasts (trace (attempt R st (Some user))) = [])
  /\ (forall message, e = ErrorInstance message ->
        includes message (lit "Insufficient credits") = false ->
        includes message (lit "Email not verified") = false ->
        toasts (trace (attempt R st (Some user))) = [generic_failure_notice])
  /\ (forall value, e = OtherValue value ->
        toasts (trace (attempt R st (Some user))) = []).
Proof.
  intros Hfail.
  rewrite (failed_attempt_toasts R st user e Hfail).
  unfold not_duplicate. repeat split.
  - intros message -> [H|H]; simpl; rewrite H; simpl;
      [reflexivity | rewrite andb_false_r; reflexivity].
  - intros message -> H1 H2; simpl. rewrite H1, H2. reflexivity.
  - intros value ->. reflexivity.
Qed.

Lemma failure_notices_witness :
  toasts (trace (attempt
                   (service (Resolved true) (Resolved true)
                      (Rejected (ErrorInstance (lit "Network down"))))
                   ready (Some alice)))
  = [generic_failure_notice].
Proof.
  refine (proj1 (proj2 (failure_notices
           (service (Resolved true) (Resolved true)
              (Rejected (ErrorInstance (lit "Network down"))))
           ready alice (ErrorInstance (lit "Network down")) _))
           (lit "Network down") eq_refl eq_refl eq_refl).
  right. split; [vm_compute; discriminate | reflexivity].
Defined.

(** C8, as stated, fails: a failure that is not an [Error] instance is
    neither of the two suppressed kinds, and it shows no notice at all. *)
Lemma non_error_failure_shows_no_generic_notice :
  remote_phase_fails
    (service (Resolved true) (Resolved true)
       (Rejected (OtherValue (lit "timeout"))))
    ready alice (OtherValue (lit "timeout"))
  /\ toasts (trace (attempt
                      (service (Resolved true) (Resolved true)
                         (Rejected (OtherValue (lit "timeout"))))
                      ready (Some alice))) = []
  /\ toasts (trace (attempt
                      (service (Resolved true) (Resolved true)
                         (Rejected (OtherValue (lit "timeout"))))
                      ready (Some alice)))
     <> [generic_failure_notice].
Proof.
  repeat split.
  - right. split; [vm_compute; discriminate | reflexivity].
  - discriminate.
Qed.

(** C10. When the remote phase of an attempt (the generation call, or the
    lookups before it) rejects with a value that is not an [Error]
    instance, no notice is shown; the value is logged, the busy flag is
    cleared and the gallery is unchanged. *)
Theorem non_error_rejection_is_silent
  (R : Remote) (st : State) (user : User) (value : jsstring) :
  remote_phase_fails R st user (OtherValue value) ->
  toasts (trace (attempt R st (Some user))) = []
  /\ In (Performed (console_error (lit "Error generating image:")
                      (OtherValue value)))
       (trace (attempt R st (Some user)))
  /\ isGenerating (final (attempt R st (Some user))) = false
  /\ images (final (attempt R st (Some user))) = images st.
Proof.
  intros Hfail.
  destruct (failed_attempt_final R st user _ Hfail) as (Hg & Hi & Hl).
  rewrite (failed_attempt_toasts R st user _ Hfail).
  repeat split; assumption.
Qed.

Lemma non_error_rejection_is_silent_witness :
  toasts (trace (attempt
                   (service (Resolved true) (Resolved true)
                      (Rejected (OtherValue (lit "quota"))))
                   ready_with_gallery (Some alice))) = []
  /\ images (final (attempt
                      (service (Resolved true) (Resolved true)
                         (Rejected (OtherValue (lit "quota"))))
                      ready_with_gallery (Some alice)))
     = [fox_image].
Proof.
  destruct (non_error_rejection_is_silent
              (service (Resolved true) (Resolved true)
                 (Rejected (OtherValue (lit "quota"))))
              ready_with_gallery alice (lit "quota")) as (Ht & _ & _ & Hi).
  - right. split; [vm_compute; discriminate | reflexivity].
  - split; [exact Ht | exact Hi].
Defined.

Lemma run_never_throws (R : Remote) (p : Prog unit) : forall st,
  never_throws p -> completion (run R p st) = Normal tt.
Proof.
  unfold completion.
  induction p as [a|e|op k IH|X c k IH|X Y c1 c2 k IH];
    intros st Hp; simpl in *.
  - destruct a. reflexivity.
  - contradiction.
  - specialize (IH (apply_op op st) Hp).
    destruct (run R k (apply_op op st)) as [[st' tr] c]. exact IH.
  - specialize (IH (respond R c) st (Hp _)).
    destruct (run R (k (respond R c)) st) as [[st' tr] c']. exact IH.
  - set (r := promise_all _ _ _).
    specialize (IH r st (Hp _)).
    destruct (run R (k r) st) as [[st' tr] c']. exact IH.
Qed.

Lemma handleGenerate_never_throws (st : State) (user : option User) :
  never_throws (handleGenerate st user).
Proof. unfold handleGenerate. prog_cases. Qed.

Lemma deliver_nothing (input : Input) (w : World) :
  user_after input (currentUser w) = currentUser w ->
  snd (handler_of input (ui w) (currentUser w)) = Ret tt ->
  deliver input w = w.
Proof.
  intros Hu Hp. unfold deliver, dispatch. rewrite Hu, Hp. simpl.
  rewrite !app_nil_r. destruct w; reflexivity.
Qed.

(** C3. An invocation of [handleGenerate] while [isGenerating] is set
    returns at once: no remote call, no effect, no state change. So, in
    every state the page can reach, a click on Generate while the flag is
    set leaves the page as it is, and at most one attempt, hence at most
    one generation call, is in flight. *)
Theorem reentrant_generate_is_noop
  (R : Remote) (st : State) (user : option User) (w : World) :
  isGenerating st = true ->
  reachable w ->
  attempt R st user = (st, [], Normal tt)
  /\ (isGenerating (ui w) = true -> deliver ClickGenerate w = w)
  /\ tasks (from_handler HGenerate) w <= 1
  /\ tasks awaits_generateImage w <= 1.
Proof.
  intros Hbusy Hreach.
  pose proof (reachable_generate w Hreach) as Hd.
  split; [exact (attempt_busy R st user Hbusy)|].
  split.
  { intros Hw. apply deliver_nothing; [reflexivity|].
    simpl. unfold handleGenerate. rewrite Hw. reflexivity. }
  assert (Hle : tasks (from_handler HGenerate) w <= 1) by apply Hd.
  split; [exact Hle|].
  eapply Nat.le_trans; [|exact Hle].
  apply (guarded_tasks_bound writes_isGenerating is_generateImage HGenerate
           isGenerating awaits_generateImage w); [|exact Hd].
  intros t Ht. unfold awaits_generateImage in Ht.
  destruct (waiting t) as [X c k|X Y c1 c2 k]; [|discriminate].
  destruct c; simpl; congruence.
Qed.

Lemma reentrant_generate_is_noop_witness :
  deliver ClickGenerate session_generating = session_generating
  /\ tasks awaits_generateImage session_generating <= 1.
Proof.
  destruct (reentrant_generate_is_noop
              (service (Resolved true) (Resolved true) (Resolved fox_image))
              (ui session_generating) (Some alice) session_generating)
    as (_ & Hclick & _ & Hone).
  - reflexivity.
  - exact reachable_session_generating.
  - split; [apply Hclick; reflexivity | exact Hone].
Defined.

(** C4. An attempt always ends, normally, with [isGenerating] cleared,
    whichever way it goes: a local rejection, no signed-in user, unverified
    email, insufficient credits, a rejected lookup, a rejected generation
    call, or success. And in every state the page can reach, the flag is
    clear as soon as no attempt is in flight. *)
Theorem busy_flag_cleared_on_every_exit
  (R : Remote) (st : State) (user : option User) (w : World) :
  isGenerating st = false ->
  reachable w ->
  isGenerating (final (attempt R st user)) = false
  /\ completion (attempt R st user) = Normal tt
  /\ (tasks (from_handler HGenerate) w = 0 -> isGenerating (ui w) = false).
Proof.
  intros Hbusy Hreach. unfold attempt. repeat split.
  - apply (run_holds writes_isGenerating isGenerating isGenerating_apply_op
             R _ false st); [|exact Hbusy].
    apply handleGenerate_holds. exact Hbusy.
  - apply run_never_throws. apply handleGenerate_never_throws.
  - intros Hnone.
    destruct (reachable_generate w Hreach) as (_ & _ & Hflag).
    rewrite Hflag, Hnone. reflexivity.
Qed.

Lemma busy_flag_cleared_on_every_exit_witness :
  isGenerating
    (final (attempt
              (service (Resolved true)
                 (Rejected (ErrorInstance (lit "offline")))
                 (Resolved fox_image))
              ready (Some alice))) = false.
Proof.
  destruct (busy_flag_cleared_on_every_exit
              (service (Resolved true)
                 (Rejected (ErrorInstance (lit "offline")))
                 (Resolved fox_image))
              ready (Some alice) (mount None)) as (Hclear & _ & _).
  - reflexivity.
  - apply reachable_mount.
  - exact Hclear.
Defined.

(** ** The verification email *)

(** C9, as the code has it. The guard against duplicate sends is the
    Resend button, disabled while [isVerificationLoading] is set: in every
    state the page can reach, a click on it while the flag is set leaves
    the page as it is, and at most one send is in flight. *)
Theorem resend_button_prevents_duplicate_sends (w : World) :
  reachable w ->
  (isVerificationLoading (ui w) = true -> deliver ClickResend w = w)
  /\ tasks (from_handler HResend) w <= 1
  /\ tasks awaits_sendVerificationEmail w <= 1.
Proof.
  intros Hreach.
  pose proof (reachable_resend w Hreach) as Hd.
  split.
  { intros Hw. apply deliver_nothing; [reflexivity|].
    simpl. unfold clickResend, renderVerificationBanner. rewrite Hw.
    destruct (currentUser w); [destruct (isEmailVerified (ui w)) as [[]|]|];
      reflexivity. }
  assert (Hle : tasks (from_handler HResend) w <= 1) by apply Hd.
  split; [exact Hle|].
  eapply Nat.le_trans; [|exact Hle].
  apply (guarded_tasks_bound writes_isVerificationLoading
           is_sendVerificationEmail HResend isVerificationLoading
           awaits_sendVerificationEmail w); [|exact Hd].
  intros t Ht. unfold awaits_sendVerificationEmail in Ht.
  destruct (waiting t) as [X c k|X Y c1 c2 k]; [|discriminate].
  destruct c; simpl; congruence.
Qed.

Lemma resend_button_prevents_duplicate_sends_witness :
  deliver ClickResend session_resending = session_resending
  /\ tasks awaits_sendVerificationEmail session_resending <= 1.
Proof.
  destruct (resend_button_prevents_duplicate_sends session_resending)
    as (Hclick & _ & Hone).
  - exact reachable_session_resending.
  - split; [apply Hclick; reflexivity | exact Hone].
Defined.

(** C9, as stated, fails: [handleResendVerification] does not test its
    busy flag; invoked while the flag is set, for a signed-in user, it
    issues a send. *)
Lemma resend_handler_has_no_guard :
  isVerificationLoading sending = true
  /\ count is_send_call
       (trace (resend
                 (service (Resolved false) (Resolved true)
                    (Resolved fox_image))
                 sending (Some alice))) = 1.
Proof. split; reflexivity. Qed.

(** ** The walkthrough *)

Lemma next_spec (st : State) :
  next st
  = if (tutorialStep st <? 4)%Z
    then apply_op (setTutorialStep (tutorialStep st + 1)) st
    else apply_op (setShowTutorial false) st.
Proof.
  unfold next, handleNextTutorial. simpl.
  destruct (tutorialStep st <? 4)%Z; reflexivity.
Qed.

Lemma tutorialStep_spared (op : Op) (st : State) :
  writes_tutorialStep op = None ->
  tutorialStep (apply_op op st) = tutorialStep st.
Proof. destruct op; simpl; congruence. Qed.

(** Every handler but [handleNextTutorial] leaves [tutorialStep] alone. *)
Lemma handlers_spare_tutorialStep (input : Input) (st : State)
  (user : option User) :
  input <> ClickNext ->
  spares writes_tutorialStep no_call (snd (handler_of input st user)).
Proof.
  destruct input; intros Hne; simpl; try congruence.
  - unfold handleGenerate. prog_cases.
  - unfold clickResend, handleResendVerification. prog_cases.
  - prog_cases.
  - prog_cases.
  - unfold apiKeyEffect. prog_cases.
  - prog_cases.
  - prog_cases.
  - unfold onAuthStateChanged, checkVerification. prog_cases.
Qed.

Lemma deliver_ClickNext (w : World) :
  ui (deliver ClickNext w) = next (ui w)
  /\ inflight (deliver ClickNext w) = inflight w.
Proof.
  unfold deliver, dispatch, next; simpl. unfold handleNextTutorial.
  destruct (tutorialStep (ui w) <? _)%Z; simpl; rewrite app_nil_r; auto.
Qed.

Lemma step_tutorialStep (w w' : World) :
  all_spare writes_tutorialStep no_call w ->
  step w w' ->
  (tutorialStep (ui w') = tutorialStep (ui w) \/ ui w' = next (ui w))
  /\ all_spare writes_tutorialStep no_call w'.
Proof.
  intros Hall Hstep.
  destruct Hstep as [w input|w h X c k before after r Hin
                    |w h X Y c1 c2 k before after r1 r2 first Hin].
  - assert (Hcase : input = ClickNext \/ input <> ClickNext)
      by (destruct input; auto; right; discriminate).
    destruct Hcase as [->|Hne].
    + destruct (deliver_ClickNext w) as [Hui Hfl]. split; [right; exact Hui|].
      unfold all_spare. rewrite Hfl. exact Hall.
    + unfold deliver.
      destruct (dispatch_spares Z writes_tutorialStep no_call tutorialStep
                  tutorialStep_spared
                  (fst (handler_of input (ui w)
                          (user_after input (currentUser w))))
                  (snd (handler_of input (ui w)
                          (user_after input (currentUser w))))
                  (user_after input (currentUser w)) (inflight w) w)
        as [Hf Hs]; auto.
      apply handlers_spare_tutorialStep. exact Hne.
  - unfold all_spare in Hall. rewrite Hin in Hall.
    apply Forall_app in Hall as [Hb Ha].
    inversion Ha as [|? ? Hk Ha']; subst. simpl in Hk. destruct Hk as [_ Ht].
    destruct (dispatch_spares Z writes_tutorialStep no_call tutorialStep
                tutorialStep_spared h (k r) (currentUser w)
                (before ++ after) w) as [Hf Hs]; auto.
    apply Forall_app; auto.
  - unfold all_spare in Hall. rewrite Hin in Hall.
    apply Forall_app in Hall as [Hb Ha].
    inversion Ha as [|? ? Hk Ha']; subst. simpl in Hk.
    destruct Hk as (_ & _ & Ht).
    destruct (dispatch_spares Z writes_tutorialStep no_call tutorialStep
                tutorialStep_spared h (k (promise_all first r1 r2))
                (currentUser w) (before ++ after) w) as [Hf Hs]; auto.
    apply Forall_app; auto.
Qed.

Lemma reachable_spares_tutorialStep (w : World) :
  reachable w -> all_spare writes_tutorialStep no_call w.
Proof.
  induction 1 as [user|w w' _ IH Hstep].
  - constructor.
  - exact (proj2 (step_tutorialStep w w' IH Hstep)).
Qed.

(** C6, as the code has it. From step 0, not dismissed, four clicks on
    Next reach step 4, still not dismissed, and a fifth dismisses the
    walkthrough at step 4. No transition of the page moves the step except
    such a click (no back, no skip-to); the dismissed flag, however, is also
    written by the dialog's open-change callback. *)
Theorem tutorial_walkthrough (st : State) (w w' : World) :
  tutorialStep st = 0%Z ->
  showTutorial st = true ->
  reachable w ->
  step w w' ->
  walkthrough (Nat.iter 4 next st) = (4%Z, false)
  /\ walkthrough (Nat.iter 5 next st) = (4%Z, true)
  /\ (tutorialStep (ui w') = tutorialStep (ui w) \/ ui w' = next (ui w)).
Proof.
  intros Hstep0 Hshown Hreach Hstep.
  assert (H4 : walkthrough (Nat.iter 4 next st) = (4%Z, false)
               /\ walkthrough (Nat.iter 5 next st) = (4%Z, true)).
  { simpl. rewrite !next_spec. rewrite Hstep0. simpl.
    unfold walkthrough; simpl. rewrite Hshown. split; reflexivity. }
  destruct H4 as [Ha Hb]. repeat split; [exact Ha | exact Hb |].
  exact (proj1 (step_tutorialStep w w'
                  (reachable_spares_tutorialStep w Hreach) Hstep)).
Qed.

Lemma tutorial_walkthrough_witness :
  walkthrough (Nat.iter 4 next initialState) = (4%Z, false)
  /\ walkthrough (Nat.iter 5 next initialState) = (4%Z, true).
Proof.
  destruct (tutorial_walkthrough initialState (mount None)
              (deliver ClickNext (mount None))) as (H4 & H5 & _).
  - reflexivity.
  - reflexivity.
  - apply reachable_mount.
  - apply step_input.
  - split; [exact H4 | exact H5].
Defined.

(** C6, as stated, fails in its last part: closing the dialog is a
    transition of the walkthrough that is not "advance". From the initial
    state it dismisses the walkthrough at step 0, where "advance" goes to
    step 1. *)
Lemma tutorial_dismissed_without_advance :
  step (mount None) (deliver (DialogOpenChange false) (mount None))
  /\ walkthrough (ui (mount None)) = (0%Z, false)
  /\ walkthrough (ui (deliver (DialogOpenChange false) (mount None)))
     = (0%Z, true)
  /\ walkthrough (next (ui (mount None))) = (1%Z, false).
Proof. repeat split. apply step_input. Qed.

(** * More of the page *)

(** ** Every way through [handleGenerate] *)

(** Split an invocation for a signed-in user that passed the re-entry
    guard and the local checks by the answers of the services. *)
Ltac signed_in_cases R st u Hpass :=
  let ev := fresh "ev" in
  let ec := fresh "ec" in
  let eg := fresh "eg" in
  let img := fresh "img" in
  let Hv := fresh "Hv" in
  let Hc := fresh "Hc" in
  let Hg := fresh "Hg" in
  destruct (answer_checkEmailVerified R (uid u)) as [[|]|ev] eqn:Hv;
  destruct (answer_hasEnoughCredits R (uid u)) as [[|]|ec] eqn:Hc;
  [ destruct (answer_generateImage R (prompt st)) as [img|eg] eqn:Hg;
    [ rewrite (attempt_success R st u img Hpass Hv Hc Hg)
    | rewrite (attempt_generation_rejected R st u eg Hpass Hv Hc Hg) ]
  | rewrite (attempt_insufficient R st u Hpass Hv Hc)
  | rewrite (attempt_checks_rejected R st u ec Hpass)
      by (rewrite Hv, Hc; reflexivity)
  | rewrite (attempt_unverified R st u true Hpass Hv Hc)
  | rewrite (attempt_unverified R st u false Hpass Hv Hc)
  | rewrite (attempt_checks_rejected R st u ec Hpass)
      by (rewrite Hv, Hc; reflexivity)
  | rewrite (attempt_checks_rejected R st u ev Hpass)
      by (rewrite Hv, Hc; reflexivity)
  | rewrite (attempt_checks_rejected R st u ev Hpass)
      by (rewrite Hv, Hc; reflexivity)
  | rewrite (attempt_checks_rejected R st u
               (if first_rejects_first R then ev else ec) Hpass)
      by (rewrite Hv, Hc; reflexivity) ].

(** Split any invocation by the guard, the local checks, the user and the
    answers of the services. *)
Ltac attempt_cases R st user :=
  let Hbusy := fresh "Hbusy" in
  let Hblank := fresh "Hblank" in
  let Hkey := fresh "Hkey" in
  let Hpass := fresh "Hpass" in
  let u := fresh "u" in
  destruct (isGenerating st) eqn:Hbusy;
  [ rewrite (attempt_busy R st user Hbusy)
  | destruct (blank (prompt st)) eqn:Hblank;
    [ rewrite (attempt_blank R st user Hbusy Hblank)
    | destruct (isApiKeySet st) eqn:Hkey;
      [ assert (Hpass : local_checks_pass st)
          by (repeat split; assumption);
        destruct user as [u|];
        [ signed_in_cases R st u Hpass
        | rewrite (attempt_signed_out R st Hpass) ]
      | rewrite (attempt_no_key R st user Hbusy Hblank Hkey) ] ] ].

Lemma generateButtonDisabled_spec (st : State) :
  generateButtonDisabled st = blank (prompt st) || negb (isApiKeySet st).
Proof.
  unfold generateButtonDisabled. rewrite not_trim_iff_blank. reflexivity.
Qed.

(** Setting and clearing the busy flag of an idle page gives the page
    back. *)
Lemma busy_round_trip (st : State) :
  isGenerating st = false ->
  apply_op (setIsGenerating false) (apply_op (setIsGenerating true) st) = st.
Proof. destruct st; simpl. intros ->. reflexivity. Qed.

(** X1. With a prompt but no accepted credential, an invocation that is
    not re-entered shows the "missing credential" notice and nothing else:
    no remote call, no state change. *)
Theorem missing_credential_is_rejected_locally
  (R : Remote) (st : State) (user : option User) :
  isGenerating st = false ->
  blank (prompt st) = false ->
  isApiKeySet st = false ->
  toasts (trace (attempt R st user))
  = [toast_error msg_missing_key (red_toast 4000 IconZap)]
  /\ remote_calls (trace (attempt R st user)) = []
  /\ final (attempt R st user) = st
  /\ completion (attempt R st user) = Normal tt.
Proof.
  intros Hbusy Hblank Hkey.
  rewrite (attempt_no_key R st user Hbusy Hblank Hkey). repeat split.
Qed.

Lemma missing_credential_is_rejected_locally_witness :
  toasts (trace (attempt lookups_down prompted (Some alice)))
  = [toast_error msg_missing_key (red_toast 4000 IconZap)].
Proof.
  apply (missing_credential_is_rejected_locally lookups_down prompted
           (Some alice)); reflexivity.
Defined.

(** X2. With nobody signed in, an invocation that passes the local checks
    shows the "not authenticated" notice, issues no remote call and leaves
    the page exactly as it was, the busy flag cleared again. *)
Theorem signed_out_attempt_is_rejected (R : Remote) (st : State) :
  isGenerating st = false ->
  blank (prompt st) = false ->
  isApiKeySet st = true ->
  toasts (trace (attempt R st None))
  = [toast_error msg_not_logged_in (red_toast 3000 IconZap)]
  /\ remote_calls (trace (attempt R st None)) = []
  /\ final (attempt R st None) = st
  /\ completion (attempt R st None) = Normal tt.
Proof.
  intros Hbusy Hblank Hkey.
  rewrite (attempt_signed_out R st) by (repeat split; assumption).
  repeat split. unfold final; simpl. apply busy_round_trip. exact Hbusy.
Qed.

Lemma signed_out_attempt_is_rejected_witness :
  final (attempt lookups_down ready None) = ready.
Proof.
  apply (signed_out_attempt_is_rejected lookups_down ready); reflexivity.
Defined.

(** X3. An invocation issues a remote call exactly when the page is not
    generating, the Generate button is not rendered disabled and a user is
    signed in. *)
Theorem remote_calls_iff_gate_open
  (R : Remote) (st : State) (user : option User) :
  remote_calls (trace (attempt R st user)) <> []
  <-> isGenerating st = false
      /\ generateButtonDisabled st = false
      /\ user <> None.
Proof.
  rewrite generateButtonDisabled_spec. split.
  - attempt_cases R st user; try destruct (not_duplicate _);
      unfold remote_calls, trace; simpl; intros H;
      try (exfalso; apply H; reflexivity);
      repeat split; discriminate.
  - intros (Hbusy & Hdis & Huser).
    apply orb_false_iff in Hdis as [Hblank Hkey].
    apply negb_false_iff in Hkey.
    destruct user as [u|]; [|congruence].
    assert (Hpass : local_checks_pass st) by (repeat split; assumption).
    signed_in_cases R st u Hpass; try destruct (not_duplicate _);
      discriminate.
Qed.

(** X4. The remote calls of an invocation are, in this order: none; or the
    verification lookup and the credit lookup of the signed-in user; or
    these two followed by one generation call for the prompt of the
    render. *)
Theorem remote_calls_in_order
  (R : Remote) (st : State) (user : option User) :
  remote_calls (trace (attempt R st user)) = []
  \/ exists u,
       user = Some u
       /\ (remote_calls (trace (attempt R st user))
           = [Issued (checkEmailVerified (uid u));
              Issued (hasEnoughCredits (uid u))]
           \/ remote_calls (trace (attempt R st user))
              = [Issued (checkEmailVerified (uid u));
                 Issued (hasEnoughCredits (uid u));
                 Issued (generateImage (prompt st))]).
Proof.
  attempt_cases R st user; try destruct (not_duplicate _);
    unfold remote_calls, trace; simpl;
    try (left; reflexivity);
    right; eexists; (split; [reflexivity|]);
    try (left; reflexivity); right; reflexivity.
Qed.

(** X5. The generation call is issued exactly when the invocation passes
    the guard and the local checks for a signed-in user and both lookups
    answer [true]; it is then issued once. *)
Theorem generation_iff_both_lookups_pass
  (R : Remote) (st : State) (user : option User) :
  (issues is_generation_call (attempt R st user)
   <-> local_checks_pass st
       /\ exists u, user = Some u
            /\ answer_checkEmailVerified R (uid u) = Resolved true
            /\ answer_hasEnoughCredits R (uid u) = Resolved true)
  /\ count is_generation_call (trace (attempt R st user)) <= 1.
Proof.
  split.
  - split; [apply generation_issued|].
    intros (Hpass & u & -> & Hv & Hc). unfold issues.
    destruct (answer_generateImage R (prompt st)) as [img|eg] eqn:Hg.
    + rewrite (attempt_success R st u img Hpass Hv Hc Hg). discriminate.
    + rewrite (attempt_generation_rejected R st u eg Hpass Hv Hc Hg).
      destruct (not_duplicate eg); discriminate.
  - attempt_cases R st user; try destruct (not_duplicate _);
      unfold count, trace; simpl; lia.
Qed.

(** X6. Whenever the two lookups of an attempt resolve, the cached
    verified flag becomes the answer of the verification lookup, whatever
    the credit lookup and the generation call then give. *)
Theorem verified_cache_follows_lookup
  (R : Remote) (st : State) (user : User) (verified hasCredits : bool) :
  issues is_verification_lookup (attempt R st (Some user)) ->
  answer_checkEmailVerified R (uid user) = Resolved verified ->
  answer_hasEnoughCredits R (uid user) = Resolved hasCredits ->
  isEmailVerified (final (attempt R st (Some user))) = Some verified.
Proof.
  intros Hfetch Hv Hc.
  destruct (issues_past_checks _ R st _ (fun _ => eq_refl) Hfetch)
    as [Hpass _].
  destruct verified.
  - destruct hasCredits.
    + destruct (answer_generateImage R (prompt st)) as [img|eg] eqn:Hg.
      * rewrite (attempt_success R st user img Hpass Hv Hc Hg). reflexivity.
      * rewrite (attempt_generation_rejected R st user eg Hpass Hv Hc Hg).
        reflexivity.
    + rewrite (attempt_insufficient R st user Hpass Hv Hc). reflexivity.
  - rewrite (attempt_unverified R st user hasCredits Hpass Hv Hc).
    reflexivity.
Qed.

Lemma verified_cache_follows_lookup_witness :
  isEmailVerified
    (final (attempt
              (service (Resolved true) (Resolved false) (Resolved fox_image))
              ready (Some alice))) = Some true.
Proof.
  apply (verified_cache_follows_lookup
           (service (Resolved true) (Resolved false) (Resolved fox_image))
           ready alice true false).
  - vm_compute. discriminate.
  - reflexivity.
  - reflexivity.
Defined.

(** X7. When a lookup of an attempt rejects, the page ends exactly as it
    was before the click: the cached verified flag, the gallery and the
    purchase modal are untouched, and no generation call is issued. *)
Theorem rejected_lookup_changes_nothing
  (R : Remote) (st : State) (user : User) (e : Thrown) :
  issues is_verification_lookup (attempt R st (Some user)) ->
  promise_all (first_rejects_first R)
    (answer_checkEmailVerified R (uid user))
    (answer_hasEnoughCredits R (uid user)) = Rejected e ->
  final (attempt R st (Some user)) = st
  /\ count is_generation_call (trace (attempt R st (Some user))) = 0
  /\ completion (attempt R st (Some user)) = Normal tt.
Proof.
  intros Hfetch Hall.
  destruct (issues_past_checks _ R st _ (fun _ => eq_refl) Hfetch)
    as [Hpass _].
  rewrite (attempt_checks_rejected R st user e Hpass Hall).
  repeat split.
  - unfold final; simpl. apply busy_round_trip. apply Hpass.
  - destruct (not_duplicate e); reflexivity.
Qed.

Lemma rejected_lookup_changes_nothing_witness :
  final (attempt lookups_down ready_with_gallery (Some alice))
  = ready_with_gallery.
Proof.
  apply (rejected_lookup_changes_nothing lookups_down ready_with_gallery
           alice (ErrorInstance (lit "unavailable"))).
  - vm_compute. discriminate.
  - reflexivity.
Defined.

(** ** What [handleGenerate] never does *)

Section PerformsOnly.

Variable allowed : Op -> bool.
Variable T : Type.
Variable observe : State -> T.

Hypothesis allowed_keeps : forall op st,
  allowed op = true -> observe (apply_op op st) = observe st.

Lemma run_performs_only (R : Remote) (p : Prog unit) : forall st,
  performs_only allowed p ->
  observe (final (run R p st)) = observe st.
Proof.
  unfold final.
  induction p as [a|e|op k IH|X c k IH|X Y c1 c2 k IH];
    intros st Hp; simpl in *; auto.
  - destruct Hp as [Hop Hk]. specialize (IH (apply_op op st) Hk).
    destruct (run R k (apply_op op st)) as [[st' tr] c]; simpl in *.
    rewrite IH. apply allowed_keeps. exact Hop.
  - specialize (IH (respond R c) st (Hp _)).
    destruct (run R (k (respond R c)) st) as [[st' tr] c']. exact IH.
  - set (r := promise_all _ _ _).
    specialize (IH r st (Hp _)).
    destruct (run R (k r) st) as [[st' tr] c']. exact IH.
Qed.

End PerformsOnly.

Lemma handleGenerate_effects (st : State) (user : option User) :
  performs_only generate_effect (handleGenerate st user).
Proof. unfold handleGenerate. prog_cases. Qed.

(** X8. No invocation of [handleGenerate] changes the prompt, the
    credential or its readiness, the verification-email busy flag or the
    walkthrough, whatever the services answer. *)
Theorem attempt_leaves_settings_alone
  (R : Remote) (st : State) (user : option User) :
  settings (final (attempt R st user)) = settings st.
Proof.
  unfold attempt.
  apply (run_performs_only generate_effect _ settings).
  - intros op st' Hop. destruct op; try discriminate; reflexivity.
  - apply handleGenerate_effects.
Qed.

(** X9. An invocation of [handleGenerate] shows at most one notice. *)
Theorem at_most_one_notice (R : Remote) (st : State) (user : option User) :
  List.length (toasts (trace (attempt R st user))) <= 1.
Proof.
  attempt_cases R st user; try destruct (not_duplicate _);
    unfold trace; simpl; lia.
Qed.


(** ** The verification email *)

(** X11. [handleResendVerification] always ends normally with its busy
    flag cleared and every other field as it was, whether a user is signed
    in or not and whether the send succeeds or not. *)
Theorem resend_clears_flag_and_nothing_else
  (R : Remote) (st : State) (user : option User) :
  final (resend R st user) = apply_op (setIsVerificationLoading false) st
  /\ completion (resend R st user) = Normal tt.
Proof.
  unfold resend, handleResendVerification.
  destruct user as [u|]; cbn; [|split; reflexivity].
  destruct (answer_sendVerificationEmail R u) as [[]|e]; split; reflexivity.
Qed.

(** X12. For a signed-in user [handleResendVerification] issues exactly
    one send and shows no notice, even when the send fails (the failure is
    only logged); with nobody signed in it issues no call and shows the
    "log in" notice. *)
Theorem resend_notices (R : Remote) (st : State) (user : option User) :
  match user with
  | Some u =>
      remote_calls (trace (resend R st user))
      = [Issued (sendVerificationEmail u)]
      /\ toasts (trace (resend R st user)) = []
      /\ forall e,
           answer_sendVerificationEmail R u = Rejected e ->
           In (Performed
                 (console_error (lit "Failed to resend verification:") e))
             (trace (resend R st user))
  | None =>
      remote_calls (trace (resend R st user)) = []
      /\ toasts (trace (resend R st user))
         = [toast_error msg_resend_login None]
  end.
Proof.
  unfold resend, handleResendVerification.
  destruct user as [u|]; cbn; [|split; reflexivity].
  destruct (answer_sendVerificationEmail R u) as [[]|e];
    repeat split; try discriminate.
  intros e' He. injection He as <-. cbn. auto.
Qed.

(** ** The authentication listener *)

(** X13. The authentication listener forgets the cached verified flag on
    sign-out without any remote call; on sign-in it caches the answer of
    the verification lookup, and when that lookup fails it leaves the page
    as it was and shows no notice. It never throws. *)
Theorem auth_listener_updates_cache
  (R : Remote) (st : State) (user : option User) :
  completion (auth_changed R st user) = Normal tt
  /\ match user with
     | None =>
         final (auth_changed R st user)
         = apply_op (setIsEmailVerified None) st
         /\ remote_calls (trace (auth_changed R st user)) = []
     | Some u =>
         match answer_checkEmailVerified R (uid u) with
         | Resolved verified =>
             final (auth_changed R st user)
             = apply_op (setIsEmailVerified (Some verified)) st
         | Rejected e =>
             final (auth_changed R st user) = st
             /\ toasts (trace (auth_changed R st user)) = []
         end
     end.
Proof.
  unfold auth_changed, onAuthStateChanged, checkVerification.
  destruct user as [u|]; cbn; [|repeat split].
  destruct (answer_checkEmailVerified R (uid u)) as [v|e]; repeat split.
Qed.

(** ** The credential effect *)

(** X14. When the environment provides a key, the credential effect uses
    it and not the typed key: if the initializer accepts it, it becomes the
    page's key and the page is ready; if the initializer rejects it, one
    notice is shown and the page, its readiness included, stays as it
    was. *)
Theorem environment_key_takes_precedence
  (envApiKey : jsstring) (initializeTogether : jsstring -> option Thrown)
  (st : State) :
  truthy envApiKey = true ->
  match initializeTogether envApiKey with
  | None =>
      fst (credential_effect envApiKey initializeTogether st)
      = apply_op (setIsApiKeySet true) (apply_op (setApiKey envApiKey) st)
      /\ toasts (snd (credential_effect envApiKey initializeTogether st))
         = []
  | Some e =>
      fst (credential_effect envApiKey initializeTogether st) = st
      /\ toasts (snd (credential_effect envApiKey initializeTogether st))
         = [toast_error (lit "Invalid API key in environment variable")
              None]
  end.
Proof.
  intros Henv. unfold credential_effect, apiKeyEffect. rewrite Henv.
  destruct (initializeTogether envApiKey); split; reflexivity.
Qed.

Lemma environment_key_takes_precedence_witness :
  isApiKeySet
    (fst (credential_effect (lit "env-key")
            (fun key => if truthy key then None
                        else Some (ErrorInstance (lit "empty")))
            prompted)) = true.
Proof.
  exact (f_equal isApiKeySet
           (proj1 (environment_key_takes_precedence (lit "env-key")
                     (fun key => if truthy key then None
                                 else Some (ErrorInstance (lit "empty")))
                     prompted eq_refl))).
Defined.

(** X15. Without an environment key, a typed key decides readiness: the
    page is ready when the initializer accepts the key; when it rejects
    it, the page is marked not ready and the "invalid format" notice is
    shown. *)
Theorem typed_key_decides_readiness
  (envApiKey : jsstring) (initializeTogether : jsstring -> option Thrown)
  (st : State) :
  truthy envApiKey = false ->
  truthy (apiKey st) = true ->
  match initializeTogether (apiKey st) with
  | None =>
      fst (credential_effect envApiKey initializeTogether st)
      = apply_op (setIsApiKeySet true) st
      /\ toasts (snd (credential_effect envApiKey initializeTogether st))
         = []
  | Some e =>
      fst (credential_effect envApiKey initializeTogether st)
      = apply_op (setIsApiKeySet false) st
      /\ toasts (snd (credential_effect envApiKey initializeTogether st))
         = [toast_error (lit "Invalid API key format") None]
  end.
Proof.
  intros Henv Hkey. unfold credential_effect, apiKeyEffect.
  rewrite Henv, Hkey.
  destruct (initializeTogether (apiKey st)); split; reflexivity.
Qed.

Lemma typed_key_decides_readiness_witness :
  isApiKeySet
    (fst (credential_effect []
            (fun _ => Some (ErrorInstance (lit "bad key")))
            (apply_op (setApiKey (lit "typed")) keyed))) = false.
Proof.
  exact (f_equal isApiKeySet
           (proj1 (typed_key_decides_readiness []
                     (fun _ => Some (ErrorInstance (lit "bad key")))
                     (apply_op (setApiKey (lit "typed")) keyed)
                     eq_refl eq_refl))).
Defined.

(** X16. Clearing the typed key does not withdraw readiness: without an
    environment key, after the key field is emptied the credential effect
    does nothing, so a page that was ready stays ready. *)
Theorem cleared_key_keeps_readiness
  (envApiKey : jsstring) (initializeTogether : jsstring -> option Thrown)
  (st : State) :
  truthy envApiKey = false ->
  credential_effect envApiKey initializeTogether
    (fst (fst (advance (handleApiKeyChange []) st)))
  = (apply_op (setApiKey []) st, [])
  /\ isApiKeySet
       (fst (credential_effect envApiKey initializeTogether
               (fst (fst (advance (handleApiKeyChange []) st)))))
     = isApiKeySet st.
Proof.
  intros Henv. unfold credential_effect, apiKeyEffect. rewrite Henv.
  split; reflexivity.
Qed.

Lemma cleared_key_keeps_readiness_witness :
  isApiKeySet
    (fst (credential_effect [] (fun _ => Some (ErrorInstance (lit "bad key")))
            (fst (fst (advance (handleApiKeyChange []) keyed))))) = true.
Proof.
  apply (cleared_key_keeps_readiness []
           (fun _ => Some (ErrorInstance (lit "bad key"))) keyed).
  reflexivity.
Defined.

(** ** The banner and the main area *)

(** X17. After an attempt whose lookups resolved, the verification banner
    follows the answer of the verification lookup: no banner when it
    answered [true], the Resend button when it answered [false], disabled
    exactly when a verification email is being sent. *)
Theorem banner_follows_attempt
  (R : Remote) (st : State) (user : User) (verified hasCredits : bool) :
  issues is_verification_lookup (attempt R st (Some user)) ->
  answer_checkEmailVerified R (uid user) = Resolved verified ->
  answer_hasEnoughCredits R (uid user) = Resolved hasCredits ->
  renderVerificationBanner (final (attempt R st (Some user))) (Some user)
  = if verified then NoBanner
    else ResendButton (isVerificationLoading st).
Proof.
  intros Hfetch Hv Hc.
  destruct (issues_past_checks _ R st _ (fun _ => eq_refl) Hfetch)
    as [Hpass _].
  destruct verified.
  - destruct hasCredits.
    + destruct (answer_generateImage R (prompt st)) as [img|eg] eqn:Hg.
      * rewrite (attempt_success R st user img Hpass Hv Hc Hg). reflexivity.
      * rewrite (attempt_generation_rejected R st user eg Hpass Hv Hc Hg).
        reflexivity.
    + rewrite (attempt_insufficient R st user Hpass Hv Hc). reflexivity.
  - rewrite (attempt_unverified R st user hasCredits Hpass Hv Hc).
    reflexivity.
Qed.

Lemma banner_follows_attempt_witness :
  renderVerificationBanner
    (final (attempt
              (service (Resolved false) (Resolved true) (Resolved fox_image))
              ready (Some alice)))
    (Some alice)
  = ResendButton false.
Proof.
  apply (banner_follows_attempt
           (service (Resolved false) (Resolved true) (Resolved fox_image))
           ready alice false true).
  - vm_compute. discriminate.
  - reflexivity.
  - reflexivity.
Defined.

(** X18. After an invocation that was not re-entered the main area never
    shows the spinner; after a successful generation it shows the gallery,
    the new image first. *)
Theorem main_view_after_attempt
  (R : Remote) (st : State) (user : option User) :
  isGenerating st = false ->
  mainView (final (attempt R st user)) <> Spinner
  /\ forall newImage,
       issues is_generation_call (attempt R st user) ->
       answer_generateImage R (prompt st) = Resolved newImage ->
       mainView (final (attempt R st user))
       = Creations (newImage :: images st).
Proof.
  intros Hbusy. split.
  - unfold mainView, attempt.
    rewrite (run_holds writes_isGenerating isGenerating
               isGenerating_apply_op R _ false st
               (handleGenerate_holds st user Hbusy) Hbusy).
    destruct (0 <? _)%nat; discriminate.
  - intros newImage Hcall Hg.
    destruct (generation_issued R st user Hcall)
      as (Hpass & u & -> & Hv & Hc).
    rewrite (attempt_success R st u newImage Hpass Hv Hc Hg). reflexivity.
Qed.

Lemma main_view_after_attempt_witness :
  mainView
    (final (attempt
              (service (Resolved true) (Resolved true) (Resolved fox_image))
              ready (Some alice)))
  = Creations [fox_image].
Proof.
  apply (proj2 (main_view_after_attempt
                  (service (Resolved true) (Resolved true)
                     (Resolved fox_image))
                  ready (Some alice) eq_refl) fox_image).
  - vm_compute. discriminate.
  - reflexivity.
Defined.

(** ** The walkthrough, over a session *)

Lemma steps_reachable (w w' : World) :
  reachable w -> steps w w' -> reachable w'.
Proof.
  intros Hw Hsteps. induction Hsteps as [|w w' w'' _ IH Hstep]; auto.
  exact (reachable_step (IH Hw) Hstep).
Qed.

Lemma next_range (st : State) :
  (0 <= tutorialStep st <= 4)%Z ->
  (0 <= tutorialStep (next st) <= 4)%Z
  /\ (tutorialStep st <= tutorialStep (next st))%Z.
Proof.
  intros Hr. rewrite next_spec.
  destruct (tutorialStep st <? 4)%Z eqn:E; simpl.
  - apply Z.ltb_lt in E. lia.
  - lia.
Qed.

Lemma reachable_tutorialStep_range (w : World) :
  reachable w -> (0 <= tutorialStep (ui w) <= 4)%Z.
Proof.
  induction 1 as [user|w w' Hw IH Hstep]; [simpl; lia|].
  destruct (proj1 (step_tutorialStep w w'
                     (reachable_spares_tutorialStep w Hw) Hstep))
    as [->| ->]; [exact IH|].
  apply next_range. exact IH.
Qed.

(** X19. In every state the page can reach, [tutorialStep] is an index of
    [tutorialSteps] (0 to 4), so the descriptor the dialog renders is
    always defined. *)
Theorem tutorial_step_stays_in_range (w : World) :
  reachable w ->
  (0 <= tutorialStep (ui w) <= 4)%Z
  /\ exists descriptor, tutorialDescriptor (ui w) = Some descriptor.
Proof.
  intros Hw. pose proof (reachable_tutorialStep_range w Hw) as Hr.
  split; [exact Hr|]. unfold tutorialDescriptor.
  assert (Hc : (tutorialStep (ui w) = 0 \/ tutorialStep (ui w) = 1
                \/ tutorialStep (ui w) = 2 \/ tutorialStep (ui w) = 3
                \/ tutorialStep (ui w) = 4)%Z) by lia.
  destruct Hc as [-> | [-> | [-> | [-> | ->]]]]; simpl; eexists; reflexivity.
Qed.

Lemma tutorial_step_stays_in_range_witness :
  exists descriptor,
    tutorialDescriptor (ui session_generating) = Some descriptor.
Proof.
  apply (tutorial_step_stays_in_range session_generating).
  exact reachable_session_generating.
Defined.

(** X20. In every state the page can reach, the step indicator has
    exactly one highlighted dot, the one of the current step. *)
Theorem step_indicator_has_one_dot (w : World) :
  reachable w ->
  List.length (filter (fun dot => dot) (stepIndicator (ui w))) = 1
  /\ nth_error (stepIndicator (ui w)) (Z.to_nat (tutorialStep (ui w)))
     = Some true.
Proof.
  intros Hw. pose proof (reachable_tutorialStep_range w Hw) as Hr.
  unfold stepIndicator.
  assert (Hc : (tutorialStep (ui w) = 0 \/ tutorialStep (ui w) = 1
                \/ tutorialStep (ui w) = 2 \/ tutorialStep (ui w) = 3
                \/ tutorialStep (ui w) = 4)%Z) by lia.
  destruct Hc as [-> | [-> | [-> | [-> | ->]]]]; split; reflexivity.
Qed.

Lemma step_indicator_has_one_dot_witness :
  List.length (filter (fun dot => dot) (stepIndicator (ui (mount None)))) = 1.
Proof.
  apply (step_indicator_has_one_dot (mount None)). apply reachable_mount.
Defined.

(** X21. In every state the page can reach, the button of the walkthrough
    says what its click does: "Finish" exactly when the click dismisses the
    walkthrough, "Next" exactly when the click moves one step forward and
    leaves the dialog open. *)
Theorem tutorial_button_agrees_with_handler (w : World) :
  reachable w ->
  (tutorialButtonLabel (ui w) = LabelFinish
   <-> next (ui w) = apply_op (setShowTutorial false) (ui w))
  /\ (tutorialButtonLabel (ui w) = LabelNext
      <-> next (ui w)
          = apply_op (setTutorialStep (tutorialStep (ui w) + 1)) (ui w)).
Proof.
  intros Hw. pose proof (reachable_tutorialStep_range w Hw) as Hr.
  rewrite next_spec. unfold tutorialButtonLabel. simpl.
  destruct (tutorialStep (ui w) =? 4)%Z eqn:E4.
  - apply Z.eqb_eq in E4. rewrite E4. simpl. split; split; auto.
    + discriminate.
    + intros H. apply (f_equal tutorialStep) in H. simpl in H. lia.
  - apply Z.eqb_neq in E4.
    assert (Hlt : (tutorialStep (ui w) <? 4)%Z = true)
      by (apply Z.ltb_lt; lia).
    rewrite Hlt. split; split; auto.
    + discriminate.
    + intros H. apply (f_equal tutorialStep) in H. simpl in H. lia.
Qed.

Lemma tutorial_button_agrees_with_handler_witness :
  tutorialButtonLabel (ui (mount None)) = LabelNext
  <-> next (ui (mount None))
      = apply_op (setTutorialStep (tutorialStep (ui (mount None)) + 1))
          (ui (mount None)).
Proof.
  apply (tutorial_button_agrees_with_handler (mount None)).
  apply reachable_mount.
Defined.

(** X22. During a session the walkthrough never goes back: whatever
    happens on the page, the step never decreases. *)
Theorem tutorial_never_goes_back (w w' : World) :
  reachable w ->
  steps w w' ->
  (tutorialStep (ui w) <= tutorialStep (ui w'))%Z.
Proof.
  intros Hw Hsteps.
  induction Hsteps as [|w w' w'' Hsteps IH Hstep]; [lia|].
  specialize (IH Hw).
  pose proof (steps_reachable w w' Hw Hsteps) as Hw'.
  destruct (proj1 (step_tutorialStep w' w''
                     (reachable_spares_tutorialStep w' Hw') Hstep))
    as [->| ->]; [exact IH|].
  pose proof (next_range (ui w') (reachable_tutorialStep_range w' Hw')).
  lia.
Qed.

Lemma tutorial_never_goes_back_witness :
  (tutorialStep (ui (mount None))
   <= tutorialStep (ui (deliver ClickNext (deliver ClickNext (mount None)))))%Z.
Proof.
  apply (tutorial_never_goes_back (mount None)).
  - apply reachable_mount.
  - eapply steps_step; [eapply steps_step; [apply steps_refl|]|];
      apply step_input.
Defined.

(** ** Busy flags and what is in flight *)

Lemma one_or_none (n : nat) : n <= 1 -> negb (n =? 0) = true <-> n = 1.
Proof.
  intros Hn. destruct n as [|[|n]]; simpl; split; intros H;
    try reflexivity; try discriminate; lia.
Qed.

(** X23. In every state the page can reach, the main area shows the
    spinner exactly while an attempt is in flight; in particular it shows
    it whenever a generation call is in flight. *)
Theorem spinner_iff_attempt_in_flight (w : World) :
  reachable w ->
  (mainView (ui w) = Spinner <-> tasks (from_handler HGenerate) w = 1)
  /\ (tasks awaits_generateImage w = 1 -> mainView (ui w) = Spinner).
Proof.
  intros Hw. pose proof (reachable_generate w Hw) as Hd.
  destruct Hd as (Hall & Hle & Hflag).
  assert (Hiff : mainView (ui w) = Spinner
                 <-> tasks (from_handler HGenerate) w = 1).
  { rewrite <- (one_or_none _ Hle), <- Hflag. unfold mainView.
    destruct (isGenerating (ui w)); [split; reflexivity|].
    destruct (0 <? _)%nat; split; discriminate. }
  split; [exact Hiff|].
  intros Hone. apply Hiff.
  assert (Hbound : tasks awaits_generateImage w
                   <= tasks (from_handler HGenerate) w).
  { apply (guarded_tasks_bound writes_isGenerating is_generateImage
             HGenerate isGenerating awaits_generateImage w);
      [|repeat split; assumption].
    intros t Ht. unfold awaits_generateImage in Ht.
    destruct (waiting t) as [X c k|X Y c1 c2 k]; [|discriminate].
    destruct c; simpl; congruence. }
  lia.
Qed.

Lemma spinner_iff_attempt_in_flight_witness :
  mainView (ui session_generating) = Spinner.
Proof.
  apply (spinner_iff_attempt_in_flight session_generating).
  - exact reachable_session_generating.
  - reflexivity.
Defined.

(** X24. In every state the page can reach, a rendered Resend button is
    disabled exactly while a resend is in flight. *)
Theorem resend_button_disabled_iff_sending (w : World) (disabled : bool) :
  reachable w ->
  renderVerificationBanner (ui w) (currentUser w) = ResendButton disabled ->
  (disabled = true <-> tasks (from_handler HResend) w = 1).
Proof.
  intros Hw Hbanner. pose proof (reachable_resend w Hw) as Hd.
  destruct Hd as (_ & Hle & Hflag).
  rewrite <- (one_or_none _ Hle), <- Hflag.
  unfold renderVerificationBanner in Hbanner.
  destruct (currentUser w); [|discriminate].
  destruct (isEmailVerified (ui w)) as [[|]|]; try discriminate.
  injection Hbanner as <-. reflexivity.
Qed.

Lemma resend_button_disabled_iff_sending_witness :
  true = true <-> tasks (from_handler HResend) session_resending = 1.
Proof.
  apply (resend_button_disabled_iff_sending session_resending true).
  - exact reachable_session_resending.
  - reflexivity.
Defined.

(** ** The gallery, over a session *)

(** X25. During a session the gallery never loses an image: whatever
    happens on the page, the gallery of a later state is the gallery of an
    earlier one with images added in front. *)
Theorem gallery_never_loses_images (w w' : World) :
  reachable w ->
  steps w w' ->
  exists added, images (ui w') = added ++ images (ui w).
Proof.
  intros Hw Hsteps.
  induction Hsteps as [|w w' w'' Hsteps IH Hstep]; [exists []; reflexivity|].
  destruct (IH Hw) as [added Hadded].
  pose proof (steps_reachable w w' Hw Hsteps) as Hw'.
  destruct (proj1 (step_gallery_grows w' w''
                     (reachable_all_grow w' Hw') Hstep)) as [more Hmore].
  exists (more ++ added). rewrite Hmore, Hadded, app_assoc. reflexivity.
Qed.

Lemma gallery_never_loses_images_witness :
  exists added,
    images (ui (settle_oldest
                  (service (Resolved true) (Resolved true)
                     (Resolved fox_image))
                  session_generating))
    = added ++ images (ui session_checking).
Proof.
  apply (gallery_never_loses_images session_checking).
  - exact reachable_session_checking.
  - eapply steps_step; [eapply steps_step; [apply steps_refl|]|];
      apply step_settle_oldest; discriminate.
Defined.

(** X26. An attempt works with the prompt of the render that was clicked
    and with the gallery of the moment the image arrives: the generation
    call carries the clicked prompt whatever the page has become when the
    lookups settle, and the new image is put in front of the gallery as it
    is when the call settles, with the busy flag cleared. *)
Theorem attempt_uses_clicked_prompt (st : State) (user : User) :
  local_checks_pass st ->
  exists k,
    snd (advance (handleGenerate st (Some user)) st)
    = Some (OnAll (checkEmailVerified (uid user))
              (hasEnoughCredits (uid user)) k)
    /\ forall later, exists k',
         advance (k (Resolved (true, true))) later
         = (apply_op (setIsEmailVerified (Some true)) later,
            [Performed (setIsEmailVerified (Some true));
             Issued (generateImage (prompt st))],
            Some (OnCall (generateImage (prompt st)) k'))
         /\ forall newImage latest,
              images (fst (fst (advance (k' (Resolved newImage)) latest)))
              = newImage :: images latest
              /\ isGenerating
                   (fst (fst (advance (k' (Resolved newImage)) latest)))
                 = false.
Proof.
  intros Hpass. rewrite (handleGenerate_past_checks st (Some user) Hpass).
  cbn. eexists. split; [reflexivity|].
  intros later. cbn. eexists. split; [reflexivity|].
  intros newImage latest. cbn. split; reflexivity.
Qed.

Lemma attempt_uses_clicked_prompt_witness :
  exists k,
    snd (advance (handleGenerate ready (Some alice)) ready)
    = Some (OnAll (checkEmailVerified (uid alice))
              (hasEnoughCredits (uid alice)) k).
Proof.
  destruct (attempt_uses_clicked_prompt ready alice) as (k & Hk & _).
  - repeat split; reflexivity.
  - exists k. exact Hk.
Defined.
